(** * The BlueZ shared queue (src/shared/queue.c)

    A shallow embedding of the singly linked, reference-counted queue of
    BlueZ and the properties of it that the specification states.

    The C heap is modelled by two typed stores, one for [struct queue_entry]
    blocks and one for [struct queue] blocks, both keyed by address.  Every
    function of queue.c becomes a computation in a small state-and-fault
    monad: reading, writing or freeing a block that is not live is a [Fault]
    (undefined behaviour in C), and loops carry a fuel argument. *)

From Stdlib Require Import ZArith Lia.
From stdpp Require Import gmap list.

Local Open Scope Z_scope.

(** ** Machine integers and pointers *)

(** [unsigned int] (the [entries] field, the [count] of [queue_remove_all])
    is 32 bits wide on the Linux targets of BlueZ: arithmetic wraps. *)
Definition UINT_MODULUS : Z := 2 ^ 32.
Definition uint (x : Z) : Z := x mod UINT_MODULUS.

(** [int] (the [ref_count] field).  The [__sync] builtins wrap around. *)
Definition INT_MAX : Z := 2 ^ 31 - 1.
Definition sint (x : Z) : Z := (x + 2 ^ 31) mod 2 ^ 32 - 2 ^ 31.

(** Pointers ([void *], [struct queue_entry *], [struct queue *]) are
    addresses; [NULL] is address 0. *)
Abbreviation ptr := Z (only parsing).
Definition NULL : ptr := 0.

(** ** Data model *)

(** [struct queue_entry { void *data; struct queue_entry *next; }] *)
Record queue_entry := Entry { data : ptr; next : ptr }.

(** [struct queue { int ref_count; struct queue_entry *head, *tail;
    unsigned int entries; }] *)
Record queue := Queue {
  ref_count : Z;
  head : ptr;
  tail : ptr;
  entries : Z
}.

Section Model.

(** Everything outside the queue that a caller's callbacks act on. *)
Context {W : Type}.

Record state := State {
  entry_mem : gmap Z queue_entry;
  queue_mem : gmap Z queue;
  world : W
}.

Inductive outcome (A : Type) : Type :=
| Ok (a : A) (s : state)
| Fault
| OutOfFuel.
Global Arguments Ok {A} a s.
Global Arguments Fault {A}.
Global Arguments OutOfFuel {A}.

Definition M (A : Type) : Type := state → outcome A.

Definition ret {A} (a : A) : M A := λ s, Ok a s.

Definition bind {A B} (m : M A) (k : A → M B) : M B :=
  λ s, match m s with
       | Ok a s' => k a s'
       | Fault => Fault
       | OutOfFuel => OutOfFuel
       end.

Definition out_of_fuel {A} : M A := λ _, OutOfFuel.

Notation "x <- m ;; k" := (bind m (λ x, k))
  (at level 100, m at next level, right associativity).
Notation "m ;; k" := (bind m (λ _, k))
  (at level 100, right associativity).

(** *** Memory primitives *)

Definition load_entry (p : ptr) : M queue_entry :=
  λ s, if p =? NULL then Fault else
       match entry_mem s !! p with
       | Some e => Ok e s
       | None => Fault
       end.

Definition store_entry (p : ptr) (e : queue_entry) : M unit :=
  λ s, if p =? NULL then Fault else
       match entry_mem s !! p with
       | Some _ => Ok tt (State (<[p := e]> (entry_mem s)) (queue_mem s) (world s))
       | None => Fault
       end.

(** [free(p)] for a [struct queue_entry]; [free(NULL)] does nothing. *)
Definition free_entry (p : ptr) : M unit :=
  λ s, if p =? NULL then Ok tt s else
       match entry_mem s !! p with
       | Some _ => Ok tt (State (delete p (entry_mem s)) (queue_mem s) (world s))
       | None => Fault
       end.

Definition load_queue (p : ptr) : M queue :=
  λ s, if p =? NULL then Fault else
       match queue_mem s !! p with
       | Some q => Ok q s
       | None => Fault
       end.

Definition store_queue (p : ptr) (q : queue) : M unit :=
  λ s, if p =? NULL then Fault else
       match queue_mem s !! p with
       | Some _ => Ok tt (State (entry_mem s) (<[p := q]> (queue_mem s)) (world s))
       | None => Fault
       end.

Definition free_queue (p : ptr) : M unit :=
  λ s, if p =? NULL then Ok tt s else
       match queue_mem s !! p with
       | Some _ => Ok tt (State (entry_mem s) (delete p (queue_mem s)) (world s))
       | None => Fault
       end.

(** [new0(struct queue_entry, 1)] and [new0(struct queue, 1)].  The macro
    [new0] comes from src/shared/util.h: a zero-filled allocation.  The
    address the allocator answers with ([NULL] when it fails) is the
    argument [a]; that a non-null answer is not a live block is the
    allocator's contract and a hypothesis of the theorems. *)
Definition new0_entry (a : ptr) : M ptr :=
  λ s, if a =? NULL then Ok NULL s else
       Ok a (State (<[a := Entry NULL NULL]> (entry_mem s)) (queue_mem s) (world s)).

Definition new0_queue (a : ptr) : M ptr :=
  λ s, if a =? NULL then Ok NULL s else
       Ok a (State (entry_mem s) (<[a := Queue 0 NULL NULL 0]> (queue_mem s)) (world s)).

(** Field reads and writes: [p->data], [p->next = v], [q->head], ... *)
Definition get_data (p : ptr) : M ptr := e <- load_entry p ;; ret (data e).
Definition get_next (p : ptr) : M ptr := e <- load_entry p ;; ret (next e).
Definition set_data (p v : ptr) : M unit :=
  e <- load_entry p ;; store_entry p (Entry v (next e)).
Definition set_next (p v : ptr) : M unit :=
  e <- load_entry p ;; store_entry p (Entry (data e) v).

Definition get_ref_count (q : ptr) : M Z := r <- load_queue q ;; ret (ref_count r).
Definition get_head (q : ptr) : M ptr := r <- load_queue q ;; ret (head r).
Definition get_tail (q : ptr) : M ptr := r <- load_queue q ;; ret (tail r).
Definition get_entries (q : ptr) : M Z := r <- load_queue q ;; ret (entries r).
Definition set_ref_count (q : ptr) (v : Z) : M unit :=
  r <- load_queue q ;; store_queue q (Queue v (head r) (tail r) (entries r)).
Definition set_head (q v : ptr) : M unit :=
  r <- load_queue q ;; store_queue q (Queue (ref_count r) v (tail r) (entries r)).
Definition set_tail (q v : ptr) : M unit :=
  r <- load_queue q ;; store_queue q (Queue (ref_count r) (head r) v (entries r)).
Definition set_entries (q : ptr) (v : Z) : M unit :=
  r <- load_queue q ;; store_queue q (Queue (ref_count r) (head r) (tail r) v).

(** *** Callback types (queue.h); a C function pointer may be [NULL],
    hence the [option] at the use sites. *)
Definition queue_destroy_func_t : Type := ptr → M unit.
Definition queue_foreach_func_t : Type := ptr → ptr → M unit.
Definition queue_match_func_t : Type := ptr → ptr → M bool.

(** ** The functions of queue.c *)

Definition queue_ref (queue : ptr) : M ptr :=
  if queue =? NULL then ret NULL else
  rc <- get_ref_count queue ;;
  set_ref_count queue (sint (rc + 1)) ;;
  ret queue.

Definition queue_unref (queue : ptr) : M unit :=
  rc <- get_ref_count queue ;;
  set_ref_count queue (sint (rc - 1)) ;;
  if negb (sint (rc - 1) =? 0) then ret tt else
  free_queue queue.

Definition queue_new (new0 : ptr) : M ptr :=
  queue <- new0_queue new0 ;;
  if queue =? NULL then ret NULL else
  set_head queue NULL ;;
  set_tail queue NULL ;;
  set_entries queue 0 ;;
  queue_ref queue.

Fixpoint queue_destroy_loop (fuel : nat) (destroy : option queue_destroy_func_t)
    (entry : ptr) : M unit :=
  if entry =? NULL then ret tt else
  match fuel with
  | O => out_of_fuel
  | S fuel' =>
      let tmp := entry in
      (match destroy with
       | Some destroy => d <- get_data entry ;; destroy d
       | None => ret tt
       end) ;;
      entry <- get_next entry ;;
      free_entry tmp ;;
      queue_destroy_loop fuel' destroy entry
  end.

Definition queue_destroy (fuel : nat) (queue : ptr)
    (destroy : option queue_destroy_func_t) : M unit :=
  if queue =? NULL then ret tt else
  entry <- get_head queue ;;
  queue_destroy_loop fuel destroy entry ;;
  queue_unref queue.

Definition queue_push_tail (queue data : ptr) (new0 : ptr) : M bool :=
  if queue =? NULL then ret false else
  entry <- new0_entry new0 ;;
  if entry =? NULL then ret false else
  set_data entry data ;;
  set_next entry NULL ;;
  t <- get_tail queue ;;
  (if negb (t =? NULL) then t <- get_tail queue ;; set_next t entry else ret tt) ;;
  set_tail queue entry ;;
  h <- get_head queue ;;
  (if h =? NULL then set_head queue entry else ret tt) ;;
  n <- get_entries queue ;;
  set_entries queue (uint (n + 1)) ;;
  ret true.

Definition queue_push_head (queue data : ptr) (new0 : ptr) : M bool :=
  if queue =? NULL then ret false else
  entry <- new0_entry new0 ;;
  if entry =? NULL then ret false else
  set_data entry data ;;
  h <- get_head queue ;;
  set_next entry h ;;
  set_head queue entry ;;
  t <- get_tail queue ;;
  (if t =? NULL then set_tail queue entry else ret tt) ;;
  n <- get_entries queue ;;
  set_entries queue (uint (n + 1)) ;;
  ret true.

Definition queue_pop_head (queue : ptr) : M ptr :=
  if queue =? NULL then ret NULL else
  h <- get_head queue ;;
  if h =? NULL then ret NULL else
  entry <- get_head queue ;;
  h <- get_head queue ;;
  hn <- get_next h ;;
  (if hn =? NULL then
     set_head queue NULL ;;
     set_tail queue NULL
   else
     h <- get_head queue ;;
     hn <- get_next h ;;
     set_head queue hn) ;;
  data <- get_data entry ;;
  free_entry entry ;;
  n <- get_entries queue ;;
  set_entries queue (uint (n - 1)) ;;
  ret data.

Definition queue_peek_head (queue : ptr) : M ptr :=
  if queue =? NULL then ret NULL else
  h <- get_head queue ;;
  if h =? NULL then ret NULL else
  h <- get_head queue ;;
  get_data h.

Definition queue_peek_tail (queue : ptr) : M ptr :=
  if queue =? NULL then ret NULL else
  t <- get_tail queue ;;
  if t =? NULL then ret NULL else
  t <- get_tail queue ;;
  get_data t.

Fixpoint queue_find_entry_loop (fuel : nat) (entry data : ptr) : M bool :=
  if entry =? NULL then ret false else
  match fuel with
  | O => out_of_fuel
  | S fuel' =>
      if entry =? data then ret true else
      entry <- get_next entry ;;
      queue_find_entry_loop fuel' entry data
  end.

Definition queue_find_entry (fuel : nat) (queue data : ptr) : M bool :=
  entry <- get_head queue ;;
  queue_find_entry_loop fuel entry data.

Fixpoint queue_foreach_loop (fuel n : nat) (queue : ptr)
    (function : queue_foreach_func_t) (user_data entry : ptr) : M unit :=
  if entry =? NULL then ret tt else
  rc <- get_ref_count queue ;;
  if negb (1 <? rc) then ret tt else
  match n with
  | O => out_of_fuel
  | S n' =>
      let tmp := entry in
      entry <- get_next tmp ;;
      d <- get_data tmp ;;
      function d user_data ;;
      found <- queue_find_entry fuel queue entry ;;
      if negb found then ret tt else
      queue_foreach_loop fuel n' queue function user_data entry
  end.

Definition queue_foreach (fuel : nat) (queue : ptr)
    (function : option queue_foreach_func_t) (user_data : ptr) : M unit :=
  if queue =? NULL then ret tt else
  match function with
  | None => ret tt
  | Some function =>
      entry <- get_head queue ;;
      if entry =? NULL then ret tt else
      queue_ref queue ;;
      queue_foreach_loop fuel fuel queue function user_data entry ;;
      queue_unref queue
  end.

Definition direct_match : queue_match_func_t :=
  λ a b, ret (a =? b).

Fixpoint queue_find_loop (fuel : nat) (function : queue_match_func_t)
    (match_data entry : ptr) : M ptr :=
  if entry =? NULL then ret NULL else
  match fuel with
  | O => out_of_fuel
  | S fuel' =>
      d <- get_data entry ;;
      m <- function d match_data ;;
      if (m : bool) then get_data entry else
      entry <- get_next entry ;;
      queue_find_loop fuel' function match_data entry
  end.

Definition queue_find (fuel : nat) (queue : ptr)
    (function : option queue_match_func_t) (match_data : ptr) : M ptr :=
  if (queue =? NULL) || negb (bool_decide (is_Some function)) then ret NULL else
  let function :=
    match function with
    | None => direct_match
    | Some f => f
    end in
  entry <- get_head queue ;;
  queue_find_loop fuel function match_data entry.

Fixpoint queue_remove_loop (fuel : nat) (queue data entry prev : ptr) : M bool :=
  if entry =? NULL then ret false else
  match fuel with
  | O => out_of_fuel
  | S fuel' =>
      d <- get_data entry ;;
      if negb (d =? data) then
        nx <- get_next entry ;;
        queue_remove_loop fuel' queue data nx entry
      else
        (if negb (prev =? NULL) then
           nx <- get_next entry ;; set_next prev nx
         else
           nx <- get_next entry ;; set_head queue nx) ;;
        nx <- get_next entry ;;
        (if nx =? NULL then set_tail queue prev else ret tt) ;;
        free_entry entry ;;
        n <- get_entries queue ;;
        set_entries queue (uint (n - 1)) ;;
        ret true
  end.

Definition queue_remove (fuel : nat) (queue data : ptr) : M bool :=
  if (queue =? NULL) || (data =? NULL) then ret false else
  entry <- get_head queue ;;
  queue_remove_loop fuel queue data entry NULL.

Fixpoint queue_remove_if_loop (fuel : nat) (queue : ptr)
    (function : queue_match_func_t) (user_data entry prev : ptr) : M ptr :=
  if entry =? NULL then ret NULL else
  match fuel with
  | O => out_of_fuel
  | S fuel' =>
      d <- get_data entry ;;
      m <- function d user_data ;;
      if (m : bool) then
        (if negb (prev =? NULL) then
           nx <- get_next entry ;; set_next prev nx
         else
           nx <- get_next entry ;; set_head queue nx) ;;
        nx <- get_next entry ;;
        (if nx =? NULL then set_tail queue prev else ret tt) ;;
        data <- get_data entry ;;
        free_entry entry ;;
        n <- get_entries queue ;;
        set_entries queue (uint (n - 1)) ;;
        ret data
      else
        nx <- get_next entry ;;
        queue_remove_if_loop fuel' queue function user_data nx entry
  end.

Definition queue_remove_if (fuel : nat) (queue : ptr)
    (function : option queue_match_func_t) (user_data : ptr) : M ptr :=
  if queue =? NULL then ret NULL else
  match function with
  | None => ret NULL
  | Some function =>
      entry <- get_head queue ;;
      queue_remove_if_loop fuel queue function user_data entry NULL
  end.

(** The loop of the [if (function)] branch of [queue_remove_all]. *)
Fixpoint queue_remove_all_match (fuel : nat) (queue : ptr)
    (function : queue_match_func_t) (user_data : ptr)
    (destroy : option queue_destroy_func_t)
    (entry prev : ptr) (count : Z) : M Z :=
  if entry =? NULL then ret count else
  match fuel with
  | O => out_of_fuel
  | S fuel' =>
      d <- get_data entry ;;
      m <- function d user_data ;;
      if (m : bool) then
        let tmp := entry in
        (if negb (prev =? NULL) then
           nx <- get_next entry ;; set_next prev nx
         else
           nx <- get_next entry ;; set_head queue nx) ;;
        nx <- get_next entry ;;
        (if nx =? NULL then set_tail queue prev else ret tt) ;;
        entry <- get_next entry ;;
        (match destroy with
         | Some destroy => d <- get_data tmp ;; destroy d
         | None => ret tt
         end) ;;
        free_entry tmp ;;
        queue_remove_all_match fuel' queue function user_data destroy
          entry prev (uint (count + 1))
      else
        nx <- get_next entry ;;
        queue_remove_all_match fuel' queue function user_data destroy
          nx entry count
  end.

(** The loop of the [else] branch of [queue_remove_all]. *)
Fixpoint queue_remove_all_clear (fuel : nat)
    (destroy : option queue_destroy_func_t) (entry : ptr) (count : Z) : M Z :=
  if entry =? NULL then ret count else
  match fuel with
  | O => out_of_fuel
  | S fuel' =>
      let tmp := entry in
      entry <- get_next entry ;;
      (match destroy with
       | Some destroy => d <- get_data tmp ;; destroy d
       | None => ret tt
       end) ;;
      free_entry tmp ;;
      queue_remove_all_clear fuel' destroy entry (uint (count + 1))
  end.

Definition queue_remove_all (fuel : nat) (queue : ptr)
    (function : option queue_match_func_t) (user_data : ptr)
    (destroy : option queue_destroy_func_t) : M Z :=
  if queue =? NULL then ret 0 else
  entry <- get_head queue ;;
  match function with
  | Some function =>
      count <- queue_remove_all_match fuel queue function user_data destroy
                 entry NULL 0 ;;
      n <- get_entries queue ;;
      set_entries queue (uint (n - count)) ;;
      ret count
  | None =>
      count <- queue_remove_all_clear fuel destroy entry 0 ;;
      set_head queue NULL ;;
      set_tail queue NULL ;;
      set_entries queue 0 ;;
      ret count
  end.

Definition queue_length (queue : ptr) : M Z :=
  if queue =? NULL then ret 0 else
  get_entries queue.

Definition queue_isempty (queue : ptr) : M bool :=
  if queue =? NULL then ret true else
  n <- get_entries queue ;;
  ret (n =? 0).

(** ** Queue-independent callbacks

    A destructor that only acts on the caller's world, and a matcher that
    is a pure test of the handle and the context. *)
Definition world_destroy (f : ptr → W → W) : queue_destroy_func_t :=
  λ d s, Ok tt (State (entry_mem s) (queue_mem s) (f d (world s))).

Definition pure_match (p : ptr → ptr → bool) : queue_match_func_t :=
  λ d u, ret (p d u).

(** ** Representation of a queue in memory *)

(** A chain of nodes, given as (address, handle) pairs in head-to-tail
    order, the last one linked to [q]. *)
Definition addr_or (l : list (Z * Z)) (q : ptr) : ptr :=
  match l with
  | [] => q
  | (a, _) :: _ => a
  end.

Fixpoint lseg (m : gmap Z queue_entry) (l : list (Z * Z)) (q : ptr) : Prop :=
  match l with
  | [] => True
  | (a, d) :: l' =>
      a ≠ NULL ∧ m !! a = Some (Entry d (addr_or l' q)) ∧ lseg m l' q
  end.

Definition last_addr (l : list (Z * Z)) : ptr :=
  match last l with
  | Some (a, _) => a
  | None => NULL
  end.

(** The live queue at [q] has reference count [rc], exactly the nodes [l]
    and the value [n] in its counter. *)
Definition queue_at (s : state) (q : ptr) (rc : Z) (l : list (Z * Z)) (n : Z) : Prop :=
  q ≠ NULL ∧
  lseg (entry_mem s) l NULL ∧
  queue_mem s !! q = Some (Queue rc (addr_or l NULL) (last_addr l) n).

(** The same, with the counter holding the number of nodes as an
    [unsigned int]. *)
Definition queue_rep (s : state) (q : ptr) (rc : Z) (l : list (Z * Z)) : Prop :=
  queue_at s q rc l (uint (Z.of_nat (length l))).

(** What the caller's world looks like once the destructor has been given
    the handles [ds] one after the other. *)
Definition destroy_all (f : option (ptr → W → W)) (ds : list Z) (w : W) : W :=
  match f with
  | Some f => foldl (λ w d, f d w) w ds
  | None => w
  end.

(** The entry store once the nodes [l] have been freed. *)
Definition free_all (l : list (Z * Z)) (m : gmap Z queue_entry) : gmap Z queue_entry :=
  foldl (λ m x, delete x.1 m) m l.

(** ** Callbacks that re-enter the queue *)

(** The caller's own effect on its world. *)
Definition act (g : W → W) : M unit :=
  λ s, Ok tt (State (entry_mem s) (queue_mem s) (g (world s))).

(** An iteration callback: after its own effect [f], when it is given the
    handle [B] it calls [queue_remove(queue, data)] on the entry it is
    visiting. *)
Definition remove_on (fuel : nat) (queue B : ptr) (f : ptr → ptr → W → W)
    : queue_foreach_func_t :=
  λ data user_data,
    act (f data user_data) ;;
    if data =? B then _ <- queue_remove fuel queue data ;; ret tt else ret tt.

(** An iteration callback: after its own effect [f], when it is given the
    handle [B] it calls [queue_destroy(queue, destroy)]. *)
Definition destroy_on (fuel : nat) (queue B : ptr) (f : ptr → ptr → W → W)
    (destroy : option queue_destroy_func_t) : queue_foreach_func_t :=
  λ data user_data,
    act (f data user_data) ;;
    if data =? B then queue_destroy fuel queue destroy else ret tt.

(** The entries [queue_foreach] leaves behind under [remove_on]:
    [queue_remove] refuses the [NULL] handle. *)
Definition survivors (B : ptr) (l : list (Z * Z)) : list (Z * Z) :=
  if B =? NULL then l else filter (λ x, x.2 ≠ B) l.

(** ** The structural invariants of the specification

    [entries == 0] iff head and tail are both absent; the walk from head
    along the next links ends at the tail node, whose next link is absent;
    [entries] is the number of nodes on that walk.  The counter is an
    [unsigned int]: it holds a value below [UINT_MODULUS]. *)
Definition queue_inv (s : state) (q : ptr) : Prop :=
  ∃ r l,
    q ≠ NULL ∧ queue_mem s !! q = Some r ∧
    0 ≤ entries r < UINT_MODULUS ∧
    (entries r = 0 ↔ head r = NULL ∧ tail r = NULL) ∧
    head r = addr_or l NULL ∧ lseg (entry_mem s) l NULL ∧
    tail r = last_addr l ∧
    entries r = Z.of_nat (length l).

(** ** Calls of the public operations *)

Inductive call : Type :=
| Call_push_head (data new0 : ptr)
| Call_push_tail (data new0 : ptr)
| Call_pop_head
| Call_remove (data : ptr)
| Call_remove_if (function : option (ptr → ptr → bool)) (user_data : ptr)
| Call_remove_all (function : option (ptr → ptr → bool)) (user_data : ptr)
    (destroy : option (ptr → W → W))
| Call_find (function : option (ptr → ptr → bool)) (match_data : ptr)
| Call_peek_head
| Call_peek_tail.

Definition do_call (fuel : nat) (queue : ptr) (c : call) : M unit :=
  match c with
  | Call_push_head d a => _ <- queue_push_head queue d a ;; ret tt
  | Call_push_tail d a => _ <- queue_push_tail queue d a ;; ret tt
  | Call_pop_head => _ <- queue_pop_head queue ;; ret tt
  | Call_remove d => _ <- queue_remove fuel queue d ;; ret tt
  | Call_remove_if f u =>
      _ <- queue_remove_if fuel queue (pure_match <$> f) u ;; ret tt
  | Call_remove_all f u d =>
      _ <- queue_remove_all fuel queue (pure_match <$> f) u (world_destroy <$> d) ;;
      ret tt
  | Call_find f u => _ <- queue_find fuel queue (pure_match <$> f) u ;; ret tt
  | Call_peek_head => _ <- queue_peek_head queue ;; ret tt
  | Call_peek_tail => _ <- queue_peek_tail queue ;; ret tt
  end.

(** A call the environment can make: the fuel covers the nodes, and a
    push gets from [new0] either [NULL] or a block that is not live and
    finds room in the counter for one more entry. *)
Definition call_ok (s : state) (q : ptr) (fuel : nat) (c : call) : Prop :=
  ∃ r, queue_mem s !! q = Some r ∧ entries r ≤ Z.of_nat fuel ∧
       match c with
       | Call_push_head _ a | Call_push_tail _ a =>
           a = NULL ∨ (entry_mem s !! a = None ∧ entries r < UINT_MODULUS - 1)
       | _ => True
       end.

(** ** Sequences of pushes and pops *)

Inductive op : Type :=
| Op_push_head (data new0 : ptr)
| Op_push_tail (data new0 : ptr)
| Op_pop_head.

(** Runs one operation and says what it adds to the number of pushes that
    succeeded and to the number of pops that found a node to detach. *)
Definition exec_op (queue : ptr) (o : op) : M (Z * Z) :=
  match o with
  | Op_push_head d a =>
      ok <- queue_push_head queue d a ;; ret (if (ok : bool) then 1 else 0, 0)
  | Op_push_tail d a =>
      ok <- queue_push_tail queue d a ;; ret (if (ok : bool) then 1 else 0, 0)
  | Op_pop_head =>
      h <- get_head queue ;;
      _ <- queue_pop_head queue ;;
      ret (0, if h =? NULL then 0 else 1)
  end.

Fixpoint run (queue : ptr) (ops : list op) : M (Z * Z) :=
  match ops with
  | [] => ret (0, 0)
  | o :: ops' =>
      r <- exec_op queue o ;;
      r' <- run queue ops' ;;
      ret (r.1 + r'.1, r.2 + r'.2)
  end.

(** Along the run, [new0] answers every push with [NULL] or with a block
    that is not live. *)
Fixpoint allocs_fresh (queue : ptr) (ops : list op) (s : state) : Prop :=
  match ops with
  | [] => True
  | o :: ops' =>
      match o with
      | Op_push_head _ a | Op_push_tail _ a => a = NULL ∨ entry_mem s !! a = None
      | Op_pop_head => True
      end ∧
      match exec_op queue o s with
      | Ok _ s' => allocs_fresh queue ops' s'
      | _ => True
      end
  end.

(** [n] pushes at the tail, of the null handle, into the blocks 1 .. n. *)
Fixpoint tail_pushes (n : nat) : list op :=
  match n with
  | O => []
  | S k => tail_pushes k ++ [Op_push_tail NULL (Z.of_nat (S k))]
  end.

(** The state a computation ends in ([s] itself if it does not end). *)
Definition final_state {A} (c : M A) (s : state) : state :=
  match c s with
  | Ok _ s' => s'
  | _ => s
  end.

End Model.

Arguments uint : simpl never.
Arguments sint : simpl never.

(** ** Concrete states and callbacks, used to run the theorems *)

Definition log (d : Z) (w : list Z) : list Z := w ++ [d].
Definition log_visit (d u : Z) (w : list Z) : list Z := w ++ [d].
Definition abcd : list (Z * Z) := [(10, 101); (20, 102); (30, 103); (40, 104)].
Definition abcd_state : @state (list Z) :=
  State (list_to_map [(10, Entry 101 20); (20, Entry 102 30);
                      (30, Entry 103 40); (40, Entry 104 NULL)])
        {[ 1 := Queue 1 10 40 4 ]} [].
Definition is_even (d u : Z) : bool := Z.even d.

Definition empty_state : @state unit := State ∅ ∅ tt.
Definition new_state : @state unit := final_state (queue_new 1) empty_state.
Definition full_state : @state unit :=
  final_state (run 1 (tail_pushes (Z.to_nat (UINT_MODULUS - 1)))) new_state.
Definition pushes_pops : list op :=
  [Op_push_tail 7 10; Op_push_head 8 20; Op_pop_head; Op_push_tail 9 NULL;
   Op_pop_head; Op_pop_head; Op_push_head NULL 10].

(** ** Further callbacks and observations *)

Section Observations.
Context {W : Type}.

Local Notation "x <- m ;; k" := (bind m (λ x, k))
  (at level 100, m at next level, right associativity).
Local Notation "m ;; k" := (bind m (λ _, k))
  (at level 100, right associativity).

(** An iteration callback that leaves the queue alone: only its own effect
    [f] on the caller's world. *)
Definition visit (f : ptr → ptr → W → W) : @queue_foreach_func_t W :=
  λ data user_data, act (f data user_data).

(** An iteration callback: after its own effect [f], when it is given the
    handle [A] it calls [queue_remove(queue, B)], for another handle. *)
Definition remove_other_on (fuel : nat) (queue A B : ptr) (f : ptr → ptr → W → W)
    : @queue_foreach_func_t W :=
  λ data user_data,
    act (f data user_data) ;;
    if data =? A then _ <- queue_remove fuel queue B ;; ret tt else ret tt.

(** An iteration callback: after its own effect [f], when it is given the
    handle [B] it calls [queue_push_tail(queue, data')]; [new0] is the
    answer of the allocator. *)
Definition push_tail_on (queue B data' new0 : ptr) (f : ptr → ptr → W → W)
    : @queue_foreach_func_t W :=
  λ data user_data,
    act (f data user_data) ;;
    if data =? B then _ <- queue_push_tail queue data' new0 ;; ret tt else ret tt.

(** [n] calls of [queue_pop_head], and the handles they return. *)
Fixpoint queue_pop_many (n : nat) (queue : ptr) : @M W (list Z) :=
  match n with
  | O => ret []
  | S k =>
      d <- queue_pop_head queue ;;
      ds <- queue_pop_many k queue ;;
      ret (d :: ds)
  end.

(** On the handles [ds] the callback [cb] has the effect [f] on the world
    and no other. *)
Definition quiet_on (cb : @queue_foreach_func_t W) (f : Z → Z → W → W) (u : Z)
    (ds : list Z) : Prop :=
  ∀ x s, x ∈ ds →
    cb x u s = Ok tt (State (entry_mem s) (queue_mem s) (f x u (world s))).

End Observations.

(** The first handle of [ds] that the test [p _ u] accepts, [NULL] when
    there is none. *)
Fixpoint first_match (p : ptr → ptr → bool) (u : ptr) (ds : list Z) : ptr :=
  match ds with
  | [] => NULL
  | d :: ds' => if p d u then d else first_match p u ds'
  end.

(** The nodes [l] without the first one whose handle the test [p _ u]
    accepts. *)
Fixpoint drop_first (p : ptr → ptr → bool) (u : ptr) (l : list (Z * Z)) : list (Z * Z) :=
  match l with
  | [] => []
  | (a, d) :: l' => if p d u then l' else (a, d) :: drop_first p u l'
  end.

(** * Proofs *)

(** ** Chains of nodes *)

Section Segments.
Context {W : Type}.
Implicit Types (s : @state W) (m : gmap Z queue_entry) (l : list (Z * Z)).

Lemma addr_or_app l1 l2 q : addr_or (l1 ++ l2) q = addr_or l1 (addr_or l2 q).
Proof. destruct l1 as [|[a d] l1]; reflexivity. Qed.

Lemma lseg_app m l1 l2 q :
  lseg m (l1 ++ l2) q ↔ lseg m l1 (addr_or l2 q) ∧ lseg m l2 q.
Proof.
  induction l1 as [|[a d] l1 IH]; simpl.
  - tauto.
  - rewrite IH, addr_or_app. tauto.
Qed.

Lemma lseg_lookup m l q a :
  lseg m l q → a ∈ l.*1 → a ≠ NULL ∧ is_Some (m !! a).
Proof.
  induction l as [|[b d] l IH]; simpl; intros Hl Hin.
  - inversion Hin.
  - destruct Hl as (Hb & Hm & Hl). apply elem_of_cons in Hin as [->|Hin]; eauto.
Qed.

Lemma addr_or_nonnull m l q x : lseg m (x :: l) q → addr_or (x :: l) q ≠ NULL.
Proof. destruct x as [a d]. simpl. tauto. Qed.

Lemma addr_or_snoc_nonnull m l x q : lseg m (l ++ [x]) q → addr_or (l ++ [x]) q ≠ NULL.
Proof. destruct l; apply addr_or_nonnull. Qed.

(** A chain that ends at [NULL] is determined by the address it starts at. *)
Lemma lseg_det m l1 l2 :
  lseg m l1 NULL → lseg m l2 NULL → addr_or l1 NULL = addr_or l2 NULL → l1 = l2.
Proof.
  revert l2. induction l1 as [|[a d] l1 IH]; intros [|[b e] l2]; simpl; try done.
  - intros _ (Hb & _) Heq. congruence.
  - intros (Ha & _) _ Heq. congruence.
  - intros (Ha & Hm1 & Hl1) (Hb & Hm2 & Hl2) ->.
    rewrite Hm1 in Hm2. injection Hm2 as -> Hn.
    f_equal. by apply IH.
Qed.

(** Hence it visits no address twice. *)
Lemma lseg_NoDup m l : lseg m l NULL → NoDup l.*1.
Proof.
  induction l as [|[a d] l IH]; simpl.
  - intros _. constructor.
  - intros (Ha & Hm & Hl). constructor; [|by apply IH].
    intros Hin. apply list_elem_of_fmap in Hin as ([a' d'] & -> & Hin).
    apply list_elem_of_split in Hin as (l1 & l2 & ->). simpl in *.
    pose proof Hl as Hl'. apply lseg_app in Hl' as [_ Hl2].
    assert (Heq : (a', d) :: l1 ++ (a', d') :: l2 = (a', d') :: l2).
    { apply (lseg_det m); simpl; try done. }
    apply (f_equal length) in Heq. simpl in Heq. rewrite length_app in Heq.
    simpl in Heq. lia.
Qed.

Lemma lseg_mid_notin m l1 a d l2 :
  lseg m (l1 ++ (a, d) :: l2) NULL → (a ∉ l1.*1) ∧ (a ∉ l2.*1).
Proof.
  intros Hl. apply lseg_NoDup in Hl. rewrite fmap_app, fmap_cons in Hl.
  apply NoDup_app in Hl as (_ & Hd & Hnd). apply NoDup_cons in Hnd as [Hn2 _].
  split; [|done]. intros Hin. apply (Hd _ Hin). constructor.
Qed.

(** Writing or freeing a block outside a chain leaves the chain alone. *)
Lemma lseg_insert_notin m l q a e :
  a ∉ l.*1 → lseg m l q → lseg (<[a := e]> m) l q.
Proof.
  induction l as [|[b d] l IH]; simpl; [done|].
  intros Hni (Hb & Hm & Hl). apply not_elem_of_cons in Hni as [Hne Hni].
  split_and!; [done| |by apply IH]. by rewrite lookup_insert_ne.
Qed.

Lemma lseg_delete_notin m l q a :
  a ∉ l.*1 → lseg m l q → lseg (delete a m) l q.
Proof.
  induction l as [|[b d] l IH]; simpl; [done|].
  intros Hni (Hb & Hm & Hl). apply not_elem_of_cons in Hni as [Hne Hni].
  split_and!; [done| |by apply IH]. by rewrite lookup_delete_ne.
Qed.

Lemma last_addr_snoc l a d : last_addr (l ++ [(a, d)]) = a.
Proof. unfold last_addr. by rewrite last_snoc. Qed.

Lemma last_addr_cons_cons x y l : last_addr (x :: y :: l) = last_addr (y :: l).
Proof. reflexivity. Qed.

Lemma last_addr_app_cons l1 x l2 : last_addr (l1 ++ x :: l2) = last_addr (x :: l2).
Proof. unfold last_addr. by rewrite last_app_cons. Qed.

Lemma last_addr_nonnull m l q : lseg m l q → l ≠ [] → last_addr l ≠ NULL.
Proof.
  destruct l as [|[t dt] l _] using rev_ind; [done|].
  intros Hl _. rewrite last_addr_snoc. apply lseg_app in Hl as [_ Ht].
  simpl in Ht. tauto.
Qed.

End Segments.

(** ** The memory primitives *)

Section Primitives.
Context {W : Type}.
Implicit Types (s : @state W) (m : gmap Z queue_entry) (l : list (Z * Z)).

Lemma bind_ok {A B} (c : @M W A) (k : A → @M W B) s a s' :
  c s = Ok a s' → bind c k s = k a s'.
Proof. unfold bind. by intros ->. Qed.

Lemma bind_assoc {A B C} (c : @M W A) (f : A → @M W B) (k : B → @M W C) s :
  bind (bind c f) k s = bind c (λ x, bind (f x) k) s.
Proof. unfold bind. by destruct (c s). Qed.

Lemma eqb_NULL_false (p : Z) : p ≠ NULL → (p =? NULL) = false.
Proof. apply Z.eqb_neq. Qed.

Lemma load_entry_ok s p e :
  p ≠ NULL → entry_mem s !! p = Some e → load_entry p s = Ok e s.
Proof. intros Hp He. unfold load_entry. by rewrite eqb_NULL_false, He. Qed.

Lemma get_data_ok s p e :
  p ≠ NULL → entry_mem s !! p = Some e → get_data p s = Ok (data e) s.
Proof. intros. unfold get_data. by erewrite bind_ok by by apply load_entry_ok. Qed.

Lemma get_next_ok s p e :
  p ≠ NULL → entry_mem s !! p = Some e → get_next p s = Ok (next e) s.
Proof. intros. unfold get_next. by erewrite bind_ok by by apply load_entry_ok. Qed.

Lemma set_data_ok s p e v :
  p ≠ NULL → entry_mem s !! p = Some e →
  set_data p v s =
    Ok tt (State (<[p := Entry v (next e)]> (entry_mem s)) (queue_mem s) (world s)).
Proof.
  intros Hp He. unfold set_data. erewrite bind_ok by by apply load_entry_ok.
  unfold store_entry. by rewrite eqb_NULL_false, He.
Qed.

Lemma set_next_ok s p e v :
  p ≠ NULL → entry_mem s !! p = Some e →
  set_next p v s =
    Ok tt (State (<[p := Entry (data e) v]> (entry_mem s)) (queue_mem s) (world s)).
Proof.
  intros Hp He. unfold set_next. erewrite bind_ok by by apply load_entry_ok.
  unfold store_entry. by rewrite eqb_NULL_false, He.
Qed.

Lemma free_entry_ok s p e :
  p ≠ NULL → entry_mem s !! p = Some e →
  free_entry p s = Ok tt (State (delete p (entry_mem s)) (queue_mem s) (world s)).
Proof. intros Hp He. unfold free_entry. by rewrite eqb_NULL_false, He. Qed.

Lemma load_queue_ok s q r :
  q ≠ NULL → queue_mem s !! q = Some r → load_queue q s = Ok r s.
Proof. intros Hq Hr. unfold load_queue. by rewrite eqb_NULL_false, Hr. Qed.

Lemma get_ref_count_ok s q r :
  q ≠ NULL → queue_mem s !! q = Some r → get_ref_count q s = Ok (ref_count r) s.
Proof. intros. unfold get_ref_count. by erewrite bind_ok by by apply load_queue_ok. Qed.

Lemma get_head_ok s q r :
  q ≠ NULL → queue_mem s !! q = Some r → get_head q s = Ok (head r) s.
Proof. intros. unfold get_head. by erewrite bind_ok by by apply load_queue_ok. Qed.

Lemma get_tail_ok s q r :
  q ≠ NULL → queue_mem s !! q = Some r → get_tail q s = Ok (tail r) s.
Proof. intros. unfold get_tail. by erewrite bind_ok by by apply load_queue_ok. Qed.

Lemma get_entries_ok s q r :
  q ≠ NULL → queue_mem s !! q = Some r → get_entries q s = Ok (entries r) s.
Proof. intros. unfold get_entries. by erewrite bind_ok by by apply load_queue_ok. Qed.

Lemma store_queue_ok s q r r' :
  q ≠ NULL → queue_mem s !! q = Some r →
  store_queue q r' s = Ok tt (State (entry_mem s) (<[q := r']> (queue_mem s)) (world s)).
Proof. intros Hq Hr. unfold store_queue. by rewrite eqb_NULL_false, Hr. Qed.

Lemma set_ref_count_ok s q r v :
  q ≠ NULL → queue_mem s !! q = Some r →
  set_ref_count q v s =
    Ok tt (State (entry_mem s)
             (<[q := Queue v (head r) (tail r) (entries r)]> (queue_mem s)) (world s)).
Proof.
  intros. unfold set_ref_count. erewrite bind_ok by by apply load_queue_ok.
  by erewrite store_queue_ok.
Qed.

Lemma set_head_ok s q r v :
  q ≠ NULL → queue_mem s !! q = Some r →
  set_head q v s =
    Ok tt (State (entry_mem s)
             (<[q := Queue (ref_count r) v (tail r) (entries r)]> (queue_mem s)) (world s)).
Proof.
  intros. unfold set_head. erewrite bind_ok by by apply load_queue_ok.
  by erewrite store_queue_ok.
Qed.

Lemma set_tail_ok s q r v :
  q ≠ NULL → queue_mem s !! q = Some r →
  set_tail q v s =
    Ok tt (State (entry_mem s)
             (<[q := Queue (ref_count r) (head r) v (entries r)]> (queue_mem s)) (world s)).
Proof.
  intros. unfold set_tail. erewrite bind_ok by by apply load_queue_ok.
  by erewrite store_queue_ok.
Qed.

Lemma set_entries_ok s q r v :
  q ≠ NULL → queue_mem s !! q = Some r →
  set_entries q v s =
    Ok tt (State (entry_mem s)
             (<[q := Queue (ref_count r) (head r) (tail r) v]> (queue_mem s)) (world s)).
Proof.
  intros. unfold set_entries. erewrite bind_ok by by apply load_queue_ok.
  by erewrite store_queue_ok.
Qed.

Lemma free_queue_ok s q r :
  q ≠ NULL → queue_mem s !! q = Some r →
  free_queue q s = Ok tt (State (entry_mem s) (delete q (queue_mem s)) (world s)).
Proof. intros Hq Hr. unfold free_queue. by rewrite eqb_NULL_false, Hr. Qed.

End Primitives.

(** Symbolic execution of one monadic step. *)
Ltac lk :=
  simpl;
  repeat first
    [ rewrite lookup_insert_eq
    | rewrite lookup_insert_ne by (congruence || lia)
    | rewrite lookup_delete_ne by (congruence || lia) ];
  first [ eassumption | reflexivity ].

Ltac prim :=
  first
    [ eapply get_data_ok | eapply get_next_ok | eapply set_data_ok
    | eapply set_next_ok | eapply free_entry_ok
    | eapply get_ref_count_ok | eapply get_head_ok | eapply get_tail_ok
    | eapply get_entries_ok | eapply set_ref_count_ok | eapply set_head_ok
    | eapply set_tail_ok | eapply set_entries_ok | eapply free_queue_ok ];
  [ first [ assumption | congruence | lia ] | lk ].

Ltac prim_or_ret := first [ prim | reflexivity ].

Ltac ifs :=
  repeat first
    [ rewrite Z.eqb_refl
    | rewrite eqb_NULL_false by first [ assumption | congruence ] ];
  cbn [negb].

Ltac step :=
  ifs;
  first [ progress erewrite bind_ok by prim_or_ret | rewrite bind_assoc ];
  simpl; ifs.

Ltac solve_rep :=
  repeat split; try done; vm_compute; reflexivity.

(** ** Pushes, pops, peeks and searches *)

Section Basic_operations.
Context {W : Type}.
Implicit Types (s : @state W) (m : gmap Z queue_entry) (l : list (Z * Z)).

Lemma uint_succ n : uint (uint n + 1) = uint (n + 1).
Proof. unfold uint. by rewrite Zplus_mod_idemp_l. Qed.

Lemma uint_pred n : uint (uint n - 1) = uint (n - 1).
Proof. unfold uint. by rewrite Zminus_mod_idemp_l. Qed.

(** [queue_push_tail] with a block that is not live appends a node. *)
Lemma push_tail_at s q rc l n d a :
  queue_at s q rc l n → a ≠ NULL → entry_mem s !! a = None →
  ∃ s', queue_push_tail q d a s = Ok true s' ∧
        queue_at s' q rc (l ++ [(a, d)]) (uint (n + 1)) ∧ world s' = world s ∧
        (∀ b, b ≠ a → entry_mem s !! b = None → entry_mem s' !! b = None).
Proof.
  intros (Hq & Hl & Hr) Ha Hfresh.
  assert (Hni : a ∉ l.*1).
  { intros Hin. destruct (lseg_lookup _ _ _ _ Hl Hin) as [_ [e He]]. congruence. }
  unfold queue_push_tail.
  rewrite (eqb_NULL_false q Hq).
  unfold bind at 1, new0_entry at 1. rewrite !(eqb_NULL_false a Ha).
  do 3 step.
  destruct l as [|[t dt] l0 _] using rev_ind.
  - simpl. repeat step. eexists. split; [reflexivity|].
    split; [|split; [done|by intros; lk]].
    split; [done|split].
    + simpl. split_and!; [done|lk|done].
    + simpl. by rewrite lookup_insert_eq.
  - rewrite last_addr_snoc in Hr |- *.
    assert (Ht : t ≠ NULL ∧ entry_mem s !! t = Some (Entry dt NULL) ∧ t ≠ a).
    { apply lseg_app in Hl as [_ (Ht & Hm & _)]. split_and!; try done.
      intros ->. apply Hni. rewrite fmap_app. set_solver. }
    destruct Ht as (Ht & Hmt & Hta).
    pose proof (addr_or_snoc_nonnull _ _ _ _ Hl) as Hh.
    repeat step. eexists. split; [reflexivity|].
    split; [|split; [done|by intros; lk]].
    rewrite fmap_app in Hni. apply not_elem_of_app in Hni as [Hni0 _].
    destruct (lseg_mid_notin _ _ _ _ _ Hl) as [Hnt _].
    split; [done|split].
    + simpl. rewrite <- app_assoc. simpl. apply lseg_app in Hl as [Hl0 _].
      apply lseg_app. split.
      * by repeat apply lseg_insert_notin.
      * simpl. split_and!; try done; lk.
    + simpl. by rewrite lookup_insert_eq, !addr_or_app, last_addr_snoc.
Qed.

(** [queue_push_head] with a block that is not live prepends a node. *)
Lemma push_head_at s q rc l n d a :
  queue_at s q rc l n → a ≠ NULL → entry_mem s !! a = None →
  ∃ s', queue_push_head q d a s = Ok true s' ∧
        queue_at s' q rc ((a, d) :: l) (uint (n + 1)) ∧ world s' = world s ∧
        (∀ b, b ≠ a → entry_mem s !! b = None → entry_mem s' !! b = None).
Proof.
  intros (Hq & Hl & Hr) Ha Hfresh.
  assert (Hni : a ∉ l.*1).
  { intros Hin. destruct (lseg_lookup _ _ _ _ Hl Hin) as [_ [e He]]. congruence. }
  unfold queue_push_head.
  rewrite (eqb_NULL_false q Hq).
  unfold bind at 1, new0_entry at 1. rewrite !(eqb_NULL_false a Ha).
  do 4 step.
  destruct l as [|[h dh] l].
  - simpl. repeat step. eexists. split; [reflexivity|].
    split; [|split; [done|by intros; lk]].
    split; [done|split].
    + simpl. split_and!; [done|lk|done].
    + simpl. by rewrite lookup_insert_eq.
  - assert (Hlast : last_addr ((h, dh) :: l) ≠ NULL).
    { by eapply last_addr_nonnull. }
    repeat step. eexists. split; [reflexivity|].
    split; [|split; [done|by intros; lk]].
    split; [done|split].
    + destruct Hl as (Hh & Hmh & Hl). apply not_elem_of_cons in Hni as [Hah Hni].
      simpl. split_and!; [done|lk|done|by lk|].
      by repeat apply lseg_insert_notin.
    + simpl. by rewrite lookup_insert_eq.
Qed.

Lemma pop_head_nil s q rc n :
  queue_at s q rc [] n → queue_pop_head q s = Ok NULL s.
Proof.
  intros (Hq & Hl & Hr). unfold queue_pop_head. by repeat step.
Qed.

(** [queue_pop_head] detaches and frees the first node. *)
Lemma pop_head_cons s q rc a d l n :
  queue_at s q rc ((a, d) :: l) n →
  ∃ s', queue_pop_head q s = Ok d s' ∧
        queue_at s' q rc l (uint (n - 1)) ∧ world s' = world s ∧
        entry_mem s' = delete a (entry_mem s).
Proof.
  intros (Hq & Hl & Hr).
  destruct (lseg_mid_notin _ [] _ _ _ Hl) as [_ Hni].
  destruct Hl as (Ha & Hm & Hl).
  unfold queue_pop_head. simpl in Hr. do 4 step.
  destruct l as [|[b e] l].
  - simpl. repeat step. eexists. split; [reflexivity|]. split; [|done].
    split; [done|split]; [done|]. simpl. by rewrite lookup_insert_eq.
  - pose proof Hl as (Hb & _). simpl.
    repeat step. eexists. split; [reflexivity|]. split; [|done].
    split; [done|split].
    + by apply lseg_delete_notin.
    + simpl. by rewrite lookup_insert_eq.
Qed.

Lemma peek_head_at s q rc l n :
  queue_at s q rc l n →
  queue_peek_head q s = Ok (match l with [] => NULL | (_, d) :: _ => d end) s.
Proof.
  intros (Hq & Hl & Hr). unfold queue_peek_head.
  destruct l as [|[a d] l]; simpl in *; [by repeat step|].
  destruct Hl as (Ha & Hm & Hl). repeat step. by rewrite (get_data_ok _ _ _ Ha Hm).
Qed.

Lemma peek_tail_at s q rc l n :
  queue_at s q rc l n →
  queue_peek_tail q s = Ok (match last l with None => NULL | Some (_, d) => d end) s.
Proof.
  intros (Hq & Hl & Hr). unfold queue_peek_tail.
  destruct l as [|[a d] l _] using rev_ind; simpl in *; [by repeat step|].
  rewrite last_addr_snoc in Hr. rewrite last_snoc.
  apply lseg_app in Hl as [_ (Ha & Hm & _)].
  repeat step. by rewrite (get_data_ok _ _ _ Ha Hm).
Qed.

(** [queue_find_entry] tells whether an address is that of a node of the
    queue. *)
Lemma find_entry_loop_ok s l p fuel :
  lseg (entry_mem s) l NULL → (length l ≤ fuel)%nat →
  queue_find_entry_loop fuel (addr_or l NULL) p s = Ok (bool_decide (p ∈ l.*1)) s.
Proof.
  revert fuel. induction l as [|[a d] l IH]; intros fuel Hl Hf.
  - by destruct fuel.
  - destruct Hl as (Ha & Hm & Hl). destruct fuel as [|fuel]; [simpl in Hf; lia|].
    simpl in *. ifs. destruct (Z.eqb_spec a p) as [->|Hne].
    + rewrite bool_decide_eq_true_2; [done|constructor].
    + step. rewrite IH by (done || lia).
      f_equal. apply bool_decide_ext. rewrite elem_of_cons.
      split; [by right|intros [?|?]; [congruence|done]].
Qed.

Lemma find_entry_at s q rc l n p fuel :
  queue_at s q rc l n → (length l ≤ fuel)%nat →
  queue_find_entry fuel q p s = Ok (bool_decide (p ∈ l.*1)) s.
Proof.
  intros (Hq & Hl & Hr) Hf. unfold queue_find_entry. step.
  by apply find_entry_loop_ok.
Qed.

Lemma find_loop_ok s l (p : Z → Z → bool) u fuel :
  lseg (entry_mem s) l NULL → (length l ≤ fuel)%nat →
  ∃ r, queue_find_loop fuel (pure_match p) u (addr_or l NULL) s = Ok r s.
Proof.
  revert fuel. induction l as [|[a d] l IH]; intros fuel Hl Hf.
  - exists NULL. by destruct fuel.
  - destruct Hl as (Ha & Hm & Hl). destruct fuel as [|fuel]; [simpl in Hf; lia|].
    simpl in *. ifs. step. unfold pure_match at 1. step.
    destruct (p d u).
    + exists d. by rewrite (get_data_ok _ _ _ Ha Hm).
    + step. apply IH; [done|lia].
Qed.

Lemma find_at s q rc l n f u fuel :
  queue_at s q rc l n → (length l ≤ fuel)%nat →
  ∃ r, queue_find fuel q (pure_match <$> f) u s = Ok r s.
Proof.
  intros (Hq & Hl & Hr) Hf. unfold queue_find. ifs.
  destruct f as [p|]; simpl; [|by eexists].
  step. by apply find_loop_ok.
Qed.

(** The unlinking block shared by [queue_remove], [queue_remove_if] and the
    matching branch of [queue_remove_all]. *)
Lemma unlink_at {A} (k : unit → @M W A) s q rc l1 a d l2 n prev :
  queue_at s q rc (l1 ++ (a, d) :: l2) n → prev = last_addr l1 →
  ∃ s',
    bind (if negb (prev =? NULL)
          then bind (get_next a) (λ nx, set_next prev nx)
          else bind (get_next a) (λ nx, set_head q nx))
      (λ _, bind (get_next a)
         (λ nx, bind (if nx =? NULL then set_tail q prev else ret tt) k)) s
    = k tt s' ∧
    queue_at s' q rc (l1 ++ l2) n ∧ world s' = world s ∧
    entry_mem s' !! a = Some (Entry d (addr_or l2 NULL)) ∧
    a ≠ NULL ∧ ((a ∉ l1.*1) ∧ (a ∉ l2.*1)) ∧
    (∀ b, b ∉ l1.*1 → entry_mem s' !! b = entry_mem s !! b).
Proof.
  intros (Hq & Hl & Hr) ->.
  destruct (lseg_mid_notin _ _ _ _ _ Hl) as [Hn1 Hn2].
  pose proof (conj Hn1 Hn2) as Hni.
  pose proof Hl as Hl'. apply lseg_app in Hl' as [Hl1 (Ha & Hm & Hl2)]. simpl in Hl1.
  rewrite addr_or_app, last_addr_app_cons in Hr. 
  destruct l1 as [|[t dt] l0 _] using rev_ind.
  - change (last_addr []) with NULL. simpl in *. rewrite ?Z.eqb_refl. simpl.
    destruct l2 as [|[b e] l2].
    + simpl in *. repeat step. eexists. split; [reflexivity|].
      split; [|by split_and!]. split; [done|split]; [done|]. simpl.
      by rewrite lookup_insert_eq.
    + pose proof Hl2 as (Hb & _). simpl in *. repeat step.
      eexists. split; [reflexivity|].
      split; [|by split_and!]. split; [done|split]; [done|]. simpl.
      by rewrite lookup_insert_eq.
  - rewrite last_addr_snoc in *. rewrite addr_or_app in Hr.
    pose proof Hl1 as Hl1'. apply lseg_app in Hl1' as [Hl0 (Ht & Hmt & _)]. simpl in Hmt, Hl0.
    rewrite <- app_assoc in Hl. simpl in Hl.
    destruct (lseg_mid_notin _ _ _ _ _ Hl) as [Hnt0 Hnt2].
    apply not_elem_of_cons in Hnt2 as [Hta Hnt2].
    rewrite <- app_assoc. simpl.
    assert (Hframe : ∀ b, b ∉ (l0 ++ [(t, dt)]).*1 → b ≠ t).
    { intros b Hb. rewrite fmap_app in Hb. apply not_elem_of_app in Hb as [_ Hb].
      by apply not_elem_of_cons in Hb as [Hb _]. }
    destruct l2 as [|[b e] l2].
    + simpl in *. repeat step. eexists. split; [reflexivity|].
      split; [|split; [done|split; [by lk|split; [done|split; [done|]]]]].
      * split; [done|split]; simpl.
        -- apply lseg_app. split; [by apply lseg_insert_notin|].
           simpl. split_and!; try done. lk.
        -- by rewrite lookup_insert_eq, addr_or_app, last_addr_snoc.
      * intros b' Hb'. apply Hframe in Hb'. lk.
    + pose proof Hl2 as (Hb & _). simpl in *. repeat step.
      eexists. split; [reflexivity|].
      split; [|split; [done|split; [by lk|split; [done|split; [done|]]]]].
      * split; [done|split]; simpl.
        -- apply lseg_app. split; [by apply lseg_insert_notin|].
           destruct Hl2 as (_ & Hmb & Hl2).
           apply not_elem_of_cons in Hnt2 as [Htb Hnt2].
           simpl. split_and!; try done; try lk. by apply lseg_insert_notin.
        -- by rewrite addr_or_app, last_addr_app_cons.
      * intros b' Hb'. apply Hframe in Hb'. lk.
Qed.

End Basic_operations.

Ltac unlink H :=
  match goal with
  | |- context [bind (if negb (?prev =? NULL) then _ else _) (λ _, bind (get_next ?a) (λ nx, bind _ ?k)) ?s] =>
      let s1 := fresh "s" in
      let Heq := fresh "Heq" in
      destruct (unlink_at k _ _ _ _ _ _ _ _ prev H) as (s1 & Heq & ?Hat & ?Hw & ?Hma & ?Hane & ?Hani & ?Hfr);
      [ try done | rewrite Heq; clear Heq ]
  end.

(** ** Removal of entries *)

Section Removal.
Context {W : Type}.
Implicit Types (s : @state W) (m : gmap Z queue_entry) (l : list (Z * Z)).

Lemma queue_at_entry s q rc l1 a d l2 n :
  queue_at s q rc (l1 ++ (a, d) :: l2) n →
  a ≠ NULL ∧ entry_mem s !! a = Some (Entry d (addr_or l2 NULL)).
Proof. intros (_ & Hl & _). apply lseg_app in Hl as [_ (? & ? & _)]. done. Qed.

(** The scan of [queue_remove] unlinks and frees the first node that holds
    the handle; [l1] are the nodes already passed, [prev] the last of them. *)
Lemma remove_loop_found s q rc n l1 r1 a d l2 fuel prev :
  queue_at s q rc (l1 ++ r1 ++ (a, d) :: l2) n → prev = last_addr l1 →
  d ∉ r1.*2 → (length r1 < fuel)%nat →
  ∃ s', queue_remove_loop fuel q d (addr_or (r1 ++ (a, d) :: l2) NULL) prev s = Ok true s' ∧
        queue_at s' q rc (l1 ++ r1 ++ l2) (uint (n - 1)) ∧ world s' = world s ∧
        entry_mem s' !! a = None.
Proof.
  revert l1 prev fuel. induction r1 as [|[b e] r1 IH]; intros l1 prev fuel Hat Hprev Hnd Hf.
  - destruct fuel as [|fuel]; [simpl in Hf; lia|]. simpl in *.
    destruct (queue_at_entry _ _ _ _ _ _ _ _ Hat) as [Ha Hm]. ifs. step.
    unlink Hat. pose proof Hat0 as (Hq & Hl' & Hr').
    repeat step. eexists. split; [reflexivity|]. split; [|split; [done|by simpl; rewrite lookup_delete_eq]].
    split; [done|split]; simpl.
    + apply lseg_delete_notin; [|done]. rewrite fmap_app. by apply not_elem_of_app.
    + by rewrite lookup_insert_eq.
  - destruct fuel as [|fuel]; [simpl in Hf; lia|]. simpl in Hf.
    rewrite fmap_cons in Hnd. apply not_elem_of_cons in Hnd as [Hne Hnd]. simpl in Hne.
    destruct (queue_at_entry _ _ _ _ _ _ _ _ Hat) as [Hb Hm].
    cbn [queue_remove_loop app addr_or]. ifs. step.
    rewrite (proj2 (Z.eqb_neq e d)) by congruence. simpl. step.
    rewrite addr_or_app. simpl.
    specialize (IH (l1 ++ [(b, e)]) b fuel).
    rewrite <- !app_assoc in IH. simpl in IH. rewrite addr_or_app in IH. simpl in IH.
    apply IH; try done; [by rewrite last_addr_snoc|lia].
Qed.

Lemma remove_loop_missing s q l d fuel prev :
  lseg (entry_mem s) l NULL → d ∉ l.*2 → (length l ≤ fuel)%nat →
  queue_remove_loop fuel q d (addr_or l NULL) prev s = Ok false s.
Proof.
  revert prev fuel. induction l as [|[b e] l IH]; intros prev fuel Hl Hnd Hf.
  - by destruct fuel.
  - destruct fuel as [|fuel]; [simpl in Hf; lia|]. simpl in Hf.
    rewrite fmap_cons in Hnd. apply not_elem_of_cons in Hnd as [Hne Hnd]. simpl in Hne.
    destruct Hl as (Hb & Hm & Hl).
    cbn [queue_remove_loop addr_or]. ifs. step.
    rewrite (proj2 (Z.eqb_neq e d)) by congruence. simpl. step.
    apply IH; try done. lia.
Qed.

Lemma remove_found s q rc n l1 a d l2 fuel :
  queue_at s q rc (l1 ++ (a, d) :: l2) n → d ≠ NULL →
  d ∉ l1.*2 → (length l1 < fuel)%nat →
  ∃ s', queue_remove fuel q d s = Ok true s' ∧
        queue_at s' q rc (l1 ++ l2) (uint (n - 1)) ∧ world s' = world s ∧
        entry_mem s' !! a = None.
Proof.
  intros Hat Hd Hnd Hf. pose proof Hat as (Hq & Hl & Hr).
  unfold queue_remove. ifs. simpl. step.
  by apply (remove_loop_found s q rc n [] l1 a d l2).
Qed.

Lemma remove_missing s q rc n l d fuel :
  queue_at s q rc l n → d ∉ l.*2 → (length l ≤ fuel)%nat →
  queue_remove fuel q d s = Ok false s.
Proof.
  intros (Hq & Hl & Hr) Hnd Hf. unfold queue_remove. ifs.
  destruct (d =? NULL); simpl; [done|]. step. by apply remove_loop_missing.
Qed.

Lemma remove_null s q fuel : queue_remove fuel q NULL s = Ok false s.
Proof. unfold queue_remove. by rewrite Z.eqb_refl, orb_true_r. Qed.

(** The same for [queue_remove_if] and the first node the predicate accepts. *)
Lemma remove_if_loop_found s q rc n (p : Z → Z → bool) u l1 r1 a d l2 fuel prev :
  queue_at s q rc (l1 ++ r1 ++ (a, d) :: l2) n → prev = last_addr l1 →
  Forall (λ x, p x.2 u = false) r1 → p d u = true → (length r1 < fuel)%nat →
  ∃ s', queue_remove_if_loop fuel q (pure_match p) u
          (addr_or (r1 ++ (a, d) :: l2) NULL) prev s = Ok d s' ∧
        queue_at s' q rc (l1 ++ r1 ++ l2) (uint (n - 1)) ∧ world s' = world s ∧
        entry_mem s' !! a = None.
Proof.
  revert l1 prev fuel.
  induction r1 as [|[b e] r1 IH]; intros l1 prev fuel Hat Hprev Hall Hp Hf.
  - destruct fuel as [|fuel]; [simpl in Hf; lia|]. simpl in *.
    destruct (queue_at_entry _ _ _ _ _ _ _ _ Hat) as [Ha Hm]. ifs. step.
    unfold pure_match at 1. step. rewrite Hp.
    unlink Hat. pose proof Hat0 as (Hq & Hl' & Hr').
    repeat step. eexists. split; [reflexivity|].
    split; [|split; [done|by simpl; rewrite lookup_delete_eq]].
    split; [done|split]; simpl.
    + apply lseg_delete_notin; [|done]. rewrite fmap_app. by apply not_elem_of_app.
    + by rewrite lookup_insert_eq.
  - destruct fuel as [|fuel]; [simpl in Hf; lia|]. simpl in Hf.
    apply Forall_cons in Hall as [Hpe Hall]. simpl in Hpe.
    destruct (queue_at_entry _ _ _ _ _ _ _ _ Hat) as [Hb Hm].
    cbn [queue_remove_if_loop app addr_or]. ifs. step.
    unfold pure_match at 1. step. rewrite Hpe. step.
    rewrite addr_or_app. simpl.
    specialize (IH (l1 ++ [(b, e)]) b fuel).
    rewrite <- !app_assoc in IH. simpl in IH. rewrite addr_or_app in IH. simpl in IH.
    apply IH; try done; [by rewrite last_addr_snoc|lia].
Qed.

Lemma remove_if_loop_missing s q (p : Z → Z → bool) u l fuel prev :
  lseg (entry_mem s) l NULL → Forall (λ x, p x.2 u = false) l →
  (length l ≤ fuel)%nat →
  queue_remove_if_loop fuel q (pure_match p) u (addr_or l NULL) prev s = Ok NULL s.
Proof.
  revert prev fuel. induction l as [|[b e] l IH]; intros prev fuel Hl Hall Hf.
  - by destruct fuel.
  - destruct fuel as [|fuel]; [simpl in Hf; lia|]. simpl in Hf.
    apply Forall_cons in Hall as [Hpe Hall]. simpl in Hpe.
    destruct Hl as (Hb & Hm & Hl).
    cbn [queue_remove_if_loop addr_or]. ifs. step.
    unfold pure_match at 1. step. rewrite Hpe. step.
    apply IH; try done. lia.
Qed.

(** Every list splits at the first element a boolean test accepts. *)
Lemma first_match_split (p : Z → Z → bool) u l :
  Forall (λ x, p x.2 u = false) l ∨
  ∃ l1 a d l2, l = l1 ++ (a, d) :: l2 ∧
               Forall (λ x, p x.2 u = false) l1 ∧ p d u = true.
Proof.
  induction l as [|[b e] l IH]; [by left|].
  destruct (p e u) eqn:Hp.
  - right. by exists [], b, e, l.
  - destruct IH as [IH|(l1 & a & d & l2 & -> & Hl1 & Hd)].
    + left. by constructor.
    + right. exists ((b, e) :: l1), a, d, l2. split_and!; try done. by constructor.
Qed.

Lemma remove_if_found s q rc n (p : Z → Z → bool) u l1 a d l2 fuel :
  queue_at s q rc (l1 ++ (a, d) :: l2) n →
  Forall (λ x, p x.2 u = false) l1 → p d u = true → (length l1 < fuel)%nat →
  ∃ s', queue_remove_if fuel q (Some (pure_match p)) u s = Ok d s' ∧
        queue_at s' q rc (l1 ++ l2) (uint (n - 1)) ∧ world s' = world s ∧
        entry_mem s' !! a = None.
Proof.
  intros Hat Hall Hp Hf. pose proof Hat as (Hq & Hl & Hr).
  unfold queue_remove_if. ifs. step.
  by apply (remove_if_loop_found s q rc n p u [] l1 a d l2).
Qed.

Lemma remove_if_missing s q rc n (p : Z → Z → bool) u l fuel :
  queue_at s q rc l n → Forall (λ x, p x.2 u = false) l → (length l ≤ fuel)%nat →
  queue_remove_if fuel q (Some (pure_match p)) u s = Ok NULL s.
Proof.
  intros (Hq & Hl & Hr) Hall Hf. unfold queue_remove_if. ifs. step.
  by apply remove_if_loop_missing.
Qed.

Lemma world_destroy_step {A} (f : option (Z → W → W)) a d nx (k : unit → @M W A) s :
  a ≠ NULL → entry_mem s !! a = Some (Entry d nx) →
  bind (match world_destroy <$> f with
        | Some destroy => bind (get_data a) (λ d, destroy d)
        | None => ret tt
        end) k s
  = k tt (State (entry_mem s) (queue_mem s) (destroy_all f [d] (world s))).
Proof.
  intros Ha Hm. destruct f as [f|]; simpl.
  - by repeat step.
  - destruct s. by step.
Qed.

Lemma destroy_all_cons f d ds (w : W) :
  destroy_all f (d :: ds) w = destroy_all f ds (destroy_all f [d] w).
Proof. by destruct f. Qed.

Lemma free_all_lookup_None l m b :
  m !! b = None → free_all l m !! b = None.
Proof.
  revert m. induction l as [|[a d] l IH]; intros m Hm; [done|].
  simpl. apply IH. rewrite lookup_delete. by case_decide.
Qed.

Lemma free_all_lookup_in l m b : b ∈ l.*1 → free_all l m !! b = None.
Proof.
  revert m. induction l as [|[a d] l IH]; intros m Hin; [by inversion Hin|].
  rewrite fmap_cons in Hin. simpl in *. apply elem_of_cons in Hin as [->|Hin].
  - apply free_all_lookup_None, lookup_delete_eq.
  - by apply IH.
Qed.

Lemma free_all_lookup_notin l m b : b ∉ l.*1 → free_all l m !! b = m !! b.
Proof.
  revert m. induction l as [|[a d] l IH]; intros m Hni; [done|].
  rewrite fmap_cons in Hni. apply not_elem_of_cons in Hni as [Hne Hni]. simpl in *.
  rewrite IH by done. by rewrite lookup_delete_ne.
Qed.

(** The clearing loop frees every node and hands every handle to the
    destructor, head to tail. *)
Lemma remove_all_clear_ok (f : option (Z → W → W)) l s c fuel :
  lseg (entry_mem s) l NULL → (length l ≤ fuel)%nat →
  queue_remove_all_clear fuel (world_destroy <$> f) (addr_or l NULL) c s =
    Ok (Nat.iter (length l) (λ c, uint (c + 1)) c)
       (State (free_all l (entry_mem s)) (queue_mem s) (destroy_all f l.*2 (world s))).
Proof.
  revert s c fuel. induction l as [|[a d] l IH]; intros s c fuel Hl Hf.
  - destruct s, f, fuel; done.
  - destruct fuel as [|fuel]; [simpl in Hf; lia|]. simpl in Hf.
    destruct (lseg_mid_notin _ [] _ _ _ Hl) as [_ Hni].
    destruct Hl as (Ha & Hm & Hl).
    change (length ((a, d) :: l)) with (S (length l)). rewrite Nat.iter_succ_r.
    rewrite fmap_cons, (destroy_all_cons f d).
    cbn [queue_remove_all_clear addr_or]. ifs. step.
    rewrite (world_destroy_step f a d (addr_or l NULL)) by done.
    step. rewrite IH; [|by apply lseg_delete_notin|lia]. done.
Qed.

Lemma iter_bump k : Nat.iter k (λ c, uint (c + 1)) 0 = uint (Z.of_nat k).
Proof.
  induction k as [|k IH]; [done|].
  rewrite Nat.iter_succ, IH, uint_succ. f_equal. lia.
Qed.

(** The matching loop of [queue_remove_all]: [l1] are the nodes kept so far,
    [rest] those still to examine. *)
Lemma remove_all_match_ok (p : Z → Z → bool) u (f : option (Z → W → W)) q rc n rest :
  ∀ l1 s c fuel prev,
  queue_at s q rc (l1 ++ rest) n → prev = last_addr l1 → (length rest ≤ fuel)%nat →
  ∃ s', queue_remove_all_match fuel q (pure_match p) u (world_destroy <$> f)
          (addr_or rest NULL) prev c s
        = Ok (Nat.iter (length (filter (λ x, p x.2 u = true) rest)) (λ c, uint (c + 1)) c) s' ∧
        queue_at s' q rc (l1 ++ filter (λ x, p x.2 u = false) rest) n ∧
        world s' = destroy_all f (filter (λ x, p x.2 u = true) rest).*2 (world s) ∧
        (∀ b, b ∈ (filter (λ x, p x.2 u = true) rest).*1 → entry_mem s' !! b = None) ∧
        (∀ b, entry_mem s !! b = None → entry_mem s' !! b = None).
Proof.
  induction rest as [|[a d] rest IH]; intros l1 s c fuel prev Hat Hprev Hf.
  - exists s. destruct fuel, f; simpl; split_and!; try done; intros b Hb; inversion Hb.
  - destruct fuel as [|fuel]; [simpl in Hf; lia|]. simpl in Hf.
    destruct (queue_at_entry _ _ _ _ _ _ _ _ Hat) as [Ha Hm].
    cbn [queue_remove_all_match addr_or]. ifs. step.
    unfold pure_match at 1. step.
    destruct (p d u) eqn:Hp.
    + rewrite (filter_cons_True (λ x, p x.2 u = true)) by done.
      rewrite (filter_cons_False (λ x, p x.2 u = false)) by (simpl; congruence).
      change (length ((a, d) :: ?t)) with (S (length t)). rewrite Nat.iter_succ_r.
      rewrite !fmap_cons, (destroy_all_cons f d).
      assert (Hlive : ∀ b, entry_mem s !! b = None → b ∉ l1.*1).
      { intros b Hb Hin. destruct Hat as (_ & Hl & _). apply lseg_app in Hl as [Hl _].
        destruct (lseg_lookup _ _ _ _ Hl Hin) as [_ [e He]]. congruence. }
      unlink Hat. destruct Hani as [Hani1 Hani2]. step.
      rewrite (world_destroy_step f a d (addr_or rest NULL)) by done.
      step.
      match goal with |- context [queue_remove_all_match _ _ _ _ _ _ _ _ ?s2] =>
        destruct (IH l1 s2 (uint (c + 1)) fuel prev) as (s' & Hrun & Hat' & Hw' & Hfreed & Hmono)
      end.
      { destruct Hat0 as (Hq & Hl' & Hr'). split; [done|split]; simpl; [|done].
        apply lseg_delete_notin; [|done]. rewrite fmap_app. by apply not_elem_of_app. }
      { done. }
      { lia. }
      exists s'. split; [done|]. split; [done|]. simpl in Hw'. rewrite Hw in Hw'.
      split; [done|]. split.
      * intros b Hb. rewrite ?fmap_cons in Hb. apply elem_of_cons in Hb as [->|Hb].
        -- apply Hmono. simpl. apply lookup_delete_eq.
        -- by apply Hfreed.
      * intros b Hb. apply Hmono. simpl. rewrite lookup_delete. case_decide; [done|].
        rewrite Hfr; [done|]. by apply Hlive.
    + rewrite (filter_cons_False (λ x, p x.2 u = true)) by (simpl; congruence).
      rewrite (filter_cons_True (λ x, p x.2 u = false)) by done.
      step.
      destruct (IH (l1 ++ [(a, d)]) s c fuel a) as (s' & Hrun & Hat' & Hrest).
      { by rewrite <- app_assoc. }
      { by rewrite last_addr_snoc. }
      { lia. }
      exists s'. split; [done|]. split; [|done]. by rewrite <- app_assoc in Hat'.
Qed.

(** Under a predicate that accepts every handle the matching loop ends in
    the very state the clearing loop and the three assignments after it
    end in. *)
Lemma remove_all_match_true_ok (p : Z → Z → bool) u (f : option (Z → W → W)) q rc n l :
  (∀ d, p d u = true) →
  ∀ s c fuel,
  q ≠ NULL → lseg (entry_mem s) l NULL →
  queue_mem s !! q = Some (Queue rc (addr_or l NULL) (last_addr l) n) →
  (length l ≤ fuel)%nat →
  queue_remove_all_match fuel q (pure_match p) u (world_destroy <$> f)
    (addr_or l NULL) NULL c s
  = Ok (Nat.iter (length l) (λ c, uint (c + 1)) c)
       (State (free_all l (entry_mem s)) (<[q := Queue rc NULL NULL n]> (queue_mem s))
          (destroy_all f l.*2 (world s))).
Proof.
  intros Hp. induction l as [|[a d] l IH]; intros s c fuel Hq Hl Hr Hf.
  - rewrite insert_id by done. destruct s, f, fuel; done.
  - destruct fuel as [|fuel]; [simpl in Hf; lia|]. simpl in Hf.
    destruct (lseg_mid_notin _ [] _ _ _ Hl) as [_ Hni].
    destruct Hl as (Ha & Hm & Hl).
    change (length ((a, d) :: l)) with (S (length l)). rewrite Nat.iter_succ_r.
    rewrite fmap_cons, (destroy_all_cons f d).
    cbn [queue_remove_all_match addr_or]. ifs. step.
    unfold pure_match at 1. step. rewrite Hp. change (NULL =? NULL) with true. cbn [negb].
    do 4 step.
    destruct l as [|[b e] l].
    + simpl. step. step.
      rewrite (world_destroy_step f a d NULL) by done.
      step. change NULL with (addr_or [] NULL) at 1.
      rewrite IH; [|done|done|by simpl; rewrite lookup_insert_eq|lia].
      simpl. by rewrite !insert_insert_eq.
    + pose proof Hl as (Hb & _). cbn [addr_or]. step. step.
      rewrite (world_destroy_step f a d b) by done.
      step. change b with (addr_or ((b, e) :: l) NULL) at 3.
      rewrite IH; [|done|by apply lseg_delete_notin|by simpl; rewrite lookup_insert_eq|simpl in *; lia].
      simpl. by rewrite !insert_insert_eq.
Qed.

Lemma remove_all_match_at (p : Z → Z → bool) u (f : option (Z → W → W)) s q rc n l fuel :
  queue_at s q rc l n → (length l ≤ fuel)%nat →
  let removed := filter (λ x, p x.2 u = true) l in
  let count := uint (Z.of_nat (length removed)) in
  ∃ s', queue_remove_all fuel q (Some (pure_match p)) u (world_destroy <$> f) s
        = Ok count s' ∧
        queue_at s' q rc (filter (λ x, p x.2 u = false) l) (uint (n - count)) ∧
        world s' = destroy_all f removed.*2 (world s) ∧
        (∀ b, b ∈ removed.*1 → entry_mem s' !! b = None).
Proof.
  intros Hat Hf removed count. pose proof Hat as (Hq & Hl & Hr).
  unfold queue_remove_all. ifs. step.
  destruct (remove_all_match_ok p u f q rc n l [] s 0 fuel NULL)
    as (s1 & Hrun & Hat1 & Hw1 & Hfreed & _); [done..|].
  erewrite bind_ok by exact Hrun. rewrite iter_bump. fold removed. fold count.
  simpl in Hat1. pose proof Hat1 as (_ & Hl1 & Hr1).
  repeat step. eexists. split; [reflexivity|]. split; [|done].
  split; [done|split]; simpl; [done|]. by rewrite lookup_insert_eq.
Qed.

Lemma remove_all_clear_at u (f : option (Z → W → W)) s q rc n l fuel :
  queue_at s q rc l n → (length l ≤ fuel)%nat →
  queue_remove_all fuel q None u (world_destroy <$> f) s
  = Ok (uint (Z.of_nat (length l)))
       (State (free_all l (entry_mem s)) (<[q := Queue rc NULL NULL 0]> (queue_mem s))
          (destroy_all f l.*2 (world s))).
Proof.
  intros (Hq & Hl & Hr) Hf. unfold queue_remove_all. ifs. step.
  erewrite bind_ok by by apply remove_all_clear_ok. rewrite iter_bump.
  repeat step. unfold ret. by rewrite !insert_insert_eq.
Qed.

Lemma remove_all_true_at (p : Z → Z → bool) u (f : option (Z → W → W)) s q rc l fuel :
  (∀ d, p d u = true) →
  queue_rep s q rc l → (length l ≤ fuel)%nat →
  queue_remove_all fuel q (Some (pure_match p)) u (world_destroy <$> f) s
  = Ok (uint (Z.of_nat (length l)))
       (State (free_all l (entry_mem s)) (<[q := Queue rc NULL NULL 0]> (queue_mem s))
          (destroy_all f l.*2 (world s))).
Proof.
  intros Hp (Hq & Hl & Hr) Hf. unfold queue_remove_all. ifs. step.
  erewrite bind_ok by by apply remove_all_match_true_ok. rewrite iter_bump.
  repeat step. unfold ret. rewrite !insert_insert_eq.
  do 4 f_equal. unfold uint. rewrite Z.sub_diag. done.
Qed.

End Removal.

(** ** Iteration with a callback that removes entries *)

Section Iteration.
Context {W : Type}.
Implicit Types (s : @state W) (m : gmap Z queue_entry) (l : list (Z * Z)).

Lemma sint_id x : - 2 ^ 31 ≤ x < 2 ^ 31 → sint x = x.
Proof. intros Hx. unfold sint. rewrite Z.mod_small by lia. lia. Qed.

Lemma uint_len_remove l1 (x : Z * Z) l2 :
  uint (uint (Z.of_nat (length (l1 ++ x :: l2))) - 1) = uint (Z.of_nat (length (l1 ++ l2))).
Proof.
  rewrite uint_pred. f_equal. rewrite !length_app. simpl. lia.
Qed.

Lemma survivors_cons_keep B a d l :
  B = NULL ∨ d ≠ B → survivors B ((a, d) :: l) = (a, d) :: survivors B l.
Proof.
  unfold survivors. intros [->|Hne]; [done|].
  destruct (B =? NULL); [done|]. by rewrite filter_cons_True.
Qed.

Lemma survivors_cons_drop B a l :
  B ≠ NULL → survivors B ((a, B) :: l) = survivors B l.
Proof.
  unfold survivors. intros HB. rewrite eqb_NULL_false by done.
  rewrite filter_cons_False; [done|]. simpl. by intros ?.
Qed.

(** One call of the callback [remove_on] on the entry being visited: [pre]
    are the entries visited and kept, none of which holds [B]. *)
Lemma remove_on_step s q rc B f u pre a d rest fuel :
  queue_rep s q rc (pre ++ (a, d) :: rest) → B = NULL ∨ B ∉ pre.*2 →
  (length (pre ++ (a, d) :: rest) ≤ fuel)%nat →
  ∃ s1 pre',
    remove_on fuel q B f d u s = Ok tt s1 ∧
    world s1 = f d u (world s) ∧
    queue_rep s1 q rc (pre' ++ rest) ∧
    (B = NULL ∨ B ∉ pre'.*2) ∧
    pre ++ survivors B ((a, d) :: rest) = pre' ++ survivors B rest ∧
    (length (pre' ++ rest) ≤ fuel)%nat.
Proof.
  intros Hrep Hpre Hf. unfold remove_on. unfold act at 1. step.
  destruct (Z.eqb_spec d B) as [->|Hne].
  - destruct (Z.eq_dec B NULL) as [->|HB].
    + erewrite bind_ok by apply remove_null. exists (State (entry_mem s) (queue_mem s) (f NULL u (world s))),
        (pre ++ [(a, NULL)]).
      rewrite <- !app_assoc. simpl.
      split; [done|]. split; [done|]. split; [exact Hrep|]. split; [by left|].
      split; [|done]. by rewrite survivors_cons_keep by by left.
    + destruct Hpre as [?|Hpre]; [done|].
      rewrite length_app in Hf. simpl in Hf.
      match goal with |- context [bind (queue_remove _ _ _) _ ?s0] =>
        destruct (remove_found s0 q rc _ pre a B rest fuel Hrep) as (s1 & Hrun & Hat & Hw & _);
          [done|done|lia|]
      end.
      erewrite bind_ok by exact Hrun. exists s1, pre. split; [done|].
      split; [done|]. split; [|split; [by right|split]].
      * unfold queue_rep. by rewrite <- uint_len_remove with (x := (a, B)).
      * by rewrite survivors_cons_drop.
      * rewrite length_app. lia.
  - exists (State (entry_mem s) (queue_mem s) (f d u (world s))), (pre ++ [(a, d)]).
    rewrite <- !app_assoc. simpl.
    split; [done|]. split; [done|]. split; [exact Hrep|]. split; [|split; [|done]].
    + destruct Hpre as [?|Hpre]; [by left|right].
      rewrite fmap_app. apply not_elem_of_app. split; [done|].
      simpl. apply not_elem_of_cons. split; [congruence|]. by intros ?%elem_of_nil.
    + rewrite survivors_cons_keep; [done|by right].
Qed.

(** The loop of [queue_foreach] under [remove_on] visits every entry of
    [rest]. *)
Lemma foreach_remove_loop q rc B f u fuel rest :
  ∀ pre s n,
  queue_rep s q rc (pre ++ rest) → 1 < rc → B = NULL ∨ B ∉ pre.*2 →
  (length rest ≤ n)%nat → (length (pre ++ rest) ≤ fuel)%nat →
  ∃ s', queue_foreach_loop fuel n q (remove_on fuel q B f) u (addr_or rest NULL) s = Ok tt s' ∧
        queue_rep s' q rc (pre ++ survivors B rest) ∧
        world s' = foldl (λ w d, f d u w) (world s) rest.*2.
Proof.
  induction rest as [|[a d] rest IH]; intros pre s n Hrep Hrc Hpre Hn Hf.
  - exists s. destruct n; simpl; split_and!; try done;
      unfold survivors; destruct (B =? NULL); done.
  - destruct n as [|n]; [simpl in Hn; lia|]. simpl in Hn.
    destruct (queue_at_entry _ _ _ _ _ _ _ _ Hrep) as [Ha Hm].
    pose proof Hrep as (Hq & Hl & Hr).
    cbn [queue_foreach_loop addr_or]. ifs. step.
    rewrite (proj2 (Z.ltb_lt 1 rc)) by done. cbn [negb]. do 2 step.
    destruct (remove_on_step s q rc B f u pre a d rest fuel Hrep Hpre Hf)
      as (s1 & pre' & Hrun & Hw1 & Hrep1 & Hpre' & Hsurv & Hf').
    erewrite bind_ok by exact Hrun.
    erewrite bind_ok by (apply (find_entry_at s1 q rc _ _ _ fuel Hrep1); done).
    rewrite Hsurv.
    destruct rest as [|[b e] rest].
    + rewrite bool_decide_eq_false_2.
      * simpl. exists s1. split_and!; try done.
        unfold survivors. destruct (B =? NULL); [done|]. done.
      * intros Hin. destruct Hrep1 as (_ & Hl1 & _).
        by destruct (lseg_lookup _ _ _ _ Hl1 Hin).
    + rewrite bool_decide_eq_true_2.
      * cbn [negb]. destruct (IH pre' s1 n) as (s' & Hrun' & Hrep' & Hw');
          [done|done|done|simpl in *; lia|done|].
        exists s'. split; [done|]. split; [done|]. by rewrite Hw', Hw1.
      * rewrite fmap_app. apply elem_of_app. right. simpl. constructor.
Qed.

Lemma foreach_remove_rep s q rc B f u fuel l :
  queue_rep s q rc l → 1 ≤ rc < INT_MAX → (length l ≤ fuel)%nat →
  ∃ s', queue_foreach fuel q (Some (remove_on fuel q B f)) u s = Ok tt s' ∧
        queue_rep s' q rc (survivors B l) ∧
        world s' = foldl (λ w d, f d u w) (world s) l.*2.
Proof.
  intros Hrep Hrc Hf. pose proof Hrep as (Hq & Hl & Hr).
  unfold queue_foreach. ifs. step.
  destruct l as [|[a d] l].
  - simpl. exists s. split_and!; try done. unfold survivors. by destruct (B =? NULL).
  - pose proof Hl as (Ha & _). cbn [addr_or]. ifs.
    remember (survivors B ((a, d) :: l)) as sv eqn:Hsv.
    remember (foldl (λ w d, f d u w) (world s) ((a, d) :: l).*2) as w' eqn:Hw.
    remember ((a, d) :: l) as L eqn:HL.
    unfold queue_ref. ifs. do 5 step.
    unfold INT_MAX in Hrc. rewrite sint_id by lia.
    match goal with |- context [bind (queue_foreach_loop _ _ _ _ _ _) _ ?s0] =>
      destruct (foreach_remove_loop q (rc + 1) B f u fuel L [] s0 fuel)
        as (s' & Hrun & Hrep' & Hw')
    end.
    { split; [done|split]; [done|]. simpl. by rewrite lookup_insert_eq. }
    { lia. }
    { by right; intros ?%elem_of_nil. }
    { done. }
    { done. }
    rewrite HL in Hrun at 1. cbn [addr_or] in Hrun.
    erewrite bind_ok by exact Hrun.
    pose proof Hrep' as (_ & Hl' & Hr'). cbn [app] in Hl', Hr'. rewrite <- Hsv in *.
    simpl in Hw'. rewrite <- Hw in Hw'.
    unfold queue_unref. do 2 step.
    replace (rc + 1 - 1) with rc by lia. rewrite sint_id by lia.
    rewrite (proj2 (Z.eqb_neq rc 0)) by lia. simpl.
    eexists. split; [reflexivity|]. split; [|done].
    split; [done|split]; simpl; [done|]. by rewrite lookup_insert_eq.
Qed.

End Iteration.

(** ** The invariants, and runs of pushes and pops *)

Section Invariants.
Context {W : Type}.
Implicit Types (s : @state W) (m : gmap Z queue_entry) (l : list (Z * Z)).

Lemma push_tail_null s q d : queue_push_tail q d NULL s = Ok false s.
Proof. unfold queue_push_tail, bind, new0_entry. by destruct (q =? NULL). Qed.

Lemma push_head_null s q d : queue_push_head q d NULL s = Ok false s.
Proof. unfold queue_push_head, bind, new0_entry. by destruct (q =? NULL). Qed.

Lemma queue_new_rep s a :
  a ≠ NULL →
  ∃ s', queue_new a s = Ok a s' ∧ queue_rep s' a 1 [] ∧ world s' = world s ∧
        entry_mem s' = entry_mem s.
Proof.
  intros Ha. unfold queue_new, new0_queue. unfold bind at 1. ifs.
  unfold queue_ref. ifs. repeat step.
  eexists. split; [reflexivity|]. split; [|done].
  split; [done|split]; [done|]. simpl. by rewrite lookup_insert_eq.
Qed.

Lemma uint_small x : 0 ≤ x < UINT_MODULUS → uint x = x.
Proof. intros. unfold uint. by apply Z.mod_small. Qed.

Lemma uint_range x : 0 ≤ uint x < UINT_MODULUS.
Proof. unfold uint. apply Z.mod_pos_bound. done. Qed.

Lemma uint_sub x y : uint (uint x - uint y) = uint (x - y).
Proof. unfold uint. by rewrite Zminus_mod_idemp_l, Zminus_mod_idemp_r. Qed.

Lemma push_tail_rep s q rc l d a :
  queue_rep s q rc l → a ≠ NULL → entry_mem s !! a = None →
  ∃ s', queue_push_tail q d a s = Ok true s' ∧
        queue_rep s' q rc (l ++ [(a, d)]) ∧ world s' = world s ∧
        (∀ b, b ≠ a → entry_mem s !! b = None → entry_mem s' !! b = None).
Proof.
  intros Hrep Ha Hfresh.
  destruct (push_tail_at s q rc l _ d a Hrep Ha Hfresh) as (s' & Hrun & Hat & Hrest).
  exists s'. split; [done|]. split; [|done].
  unfold queue_rep. rewrite uint_succ in Hat. rewrite length_app. simpl.
  by replace (Z.of_nat (length l + 1)) with (Z.of_nat (length l) + 1) by lia.
Qed.

Lemma push_head_rep s q rc l d a :
  queue_rep s q rc l → a ≠ NULL → entry_mem s !! a = None →
  ∃ s', queue_push_head q d a s = Ok true s' ∧
        queue_rep s' q rc ((a, d) :: l) ∧ world s' = world s ∧
        (∀ b, b ≠ a → entry_mem s !! b = None → entry_mem s' !! b = None).
Proof.
  intros Hrep Ha Hfresh.
  destruct (push_head_at s q rc l _ d a Hrep Ha Hfresh) as (s' & Hrun & Hat & Hrest).
  exists s'. split; [done|]. split; [|done].
  unfold queue_rep. rewrite uint_succ in Hat. cbn [length].
  by replace (Z.of_nat (S (length l))) with (Z.of_nat (length l) + 1) by lia.
Qed.

Lemma pop_head_rep s q rc a d l :
  queue_rep s q rc ((a, d) :: l) →
  ∃ s', queue_pop_head q s = Ok d s' ∧
        queue_rep s' q rc l ∧ world s' = world s ∧
        entry_mem s' = delete a (entry_mem s).
Proof.
  intros Hrep.
  destruct (pop_head_cons s q rc a d l _ Hrep) as (s' & Hrun & Hat & Hrest).
  exists s'. split; [done|]. split; [|done].
  unfold queue_rep. rewrite uint_pred in Hat. cbn [length] in Hat.
  by replace (Z.of_nat (S (length l)) - 1) with (Z.of_nat (length l)) in Hat by lia.
Qed.

Lemma remove_rep s q rc l1 a d l2 fuel :
  queue_rep s q rc (l1 ++ (a, d) :: l2) → d ≠ NULL →
  d ∉ l1.*2 → (length l1 < fuel)%nat →
  ∃ s', queue_remove fuel q d s = Ok true s' ∧
        queue_rep s' q rc (l1 ++ l2) ∧ world s' = world s ∧
        entry_mem s' !! a = None.
Proof.
  intros Hrep Hd Hnd Hf.
  destruct (remove_found s q rc _ l1 a d l2 fuel Hrep Hd Hnd Hf) as (s' & Hrun & Hat & Hrest).
  exists s'. split; [done|]. split; [|done].
  unfold queue_rep. by rewrite <- uint_len_remove with (x := (a, d)).
Qed.

Lemma remove_if_rep s q rc (p : Z → Z → bool) u l1 a d l2 fuel :
  queue_rep s q rc (l1 ++ (a, d) :: l2) →
  Forall (λ x, p x.2 u = false) l1 → p d u = true → (length l1 < fuel)%nat →
  ∃ s', queue_remove_if fuel q (Some (pure_match p)) u s = Ok d s' ∧
        queue_rep s' q rc (l1 ++ l2) ∧ world s' = world s ∧
        entry_mem s' !! a = None.
Proof.
  intros Hrep Hall Hp Hf.
  destruct (remove_if_found s q rc _ p u l1 a d l2 fuel Hrep Hall Hp Hf)
    as (s' & Hrun & Hat & Hrest).
  exists s'. split; [done|]. split; [|done].
  unfold queue_rep. by rewrite <- uint_len_remove with (x := (a, d)).
Qed.

Lemma filter_split_length (p : Z → Z → bool) u l :
  (length (filter (λ x, p x.2 u = true) l) + length (filter (λ x, p x.2 u = false) l)
   = length l)%nat.
Proof.
  induction l as [|[a d] l IH]; [done|].
  destruct (p d u) eqn:Hp.
  - rewrite (filter_cons_True (λ x, p x.2 u = true)) by done.
    rewrite (filter_cons_False (λ x, p x.2 u = false)) by (simpl; congruence).
    simpl. lia.
  - rewrite (filter_cons_False (λ x, p x.2 u = true)) by (simpl; congruence).
    rewrite (filter_cons_True (λ x, p x.2 u = false)) by done.
    simpl. lia.
Qed.

Lemma remove_all_match_rep (p : Z → Z → bool) u (f : option (Z → W → W)) s q rc l fuel :
  queue_rep s q rc l → (length l ≤ fuel)%nat →
  let removed := filter (λ x, p x.2 u = true) l in
  ∃ s', queue_remove_all fuel q (Some (pure_match p)) u (world_destroy <$> f) s
        = Ok (uint (Z.of_nat (length removed))) s' ∧
        queue_rep s' q rc (filter (λ x, p x.2 u = false) l) ∧
        world s' = destroy_all f removed.*2 (world s) ∧
        (∀ b, b ∈ removed.*1 → entry_mem s' !! b = None).
Proof.
  intros Hrep Hf removed.
  destruct (remove_all_match_at p u f s q rc _ l fuel Hrep Hf) as (s' & Hrun & Hat & Hrest).
  exists s'. split; [done|]. split; [|done].
  unfold queue_rep. rewrite uint_sub in Hat.
  pose proof (filter_split_length p u l) as Hlen.
  match goal with |- queue_at _ _ _ _ (uint ?x) =>
    match type of Hat with queue_at _ _ _ _ (uint ?y) => by replace x with y by lia end
  end.
Qed.

(** *** The invariants of the specification and the representation *)

Lemma rep_inv s q rc l :
  queue_rep s q rc l → Z.of_nat (length l) < UINT_MODULUS → queue_inv s q.
Proof.
  intros (Hq & Hl & Hr) Hlen. eexists _, l. split; [done|]. split; [exact Hr|].
  simpl. rewrite uint_small by lia. split; [lia|]. split; [|done].
  destruct l as [|[a d] l]; [done|]. simpl. split; [lia|].
  intros [Ha _]. by destruct Hl.
Qed.

Lemma inv_rep s q :
  queue_inv s q →
  ∃ rc l, queue_rep s q rc l ∧ Z.of_nat (length l) < UINT_MODULUS ∧
          ∀ r, queue_mem s !! q = Some r → entries r = Z.of_nat (length l).
Proof.
  intros (r & l & Hq & Hr & Hrange & _ & Hh & Hl & Ht & He).
  exists (ref_count r), l. split; [|split; [lia|]].
  - split; [done|split]; [done|]. rewrite uint_small by lia.
    destruct r. simpl in *. by subst.
  - intros r' Hr'. congruence.
Qed.

Lemma data_split (d : Z) l :
  d ∉ l.*2 ∨ ∃ l1 a l2, l = l1 ++ (a, d) :: l2 ∧ d ∉ l1.*2.
Proof.
  induction l as [|[b e] l IH]; [left; by intros ?%elem_of_nil|].
  destruct (Z.eq_dec e d) as [->|Hne].
  - right. exists [], b, l. split; [done|]. by intros ?%elem_of_nil.
  - destruct IH as [IH|(l1 & a & l2 & -> & Hl1)].
    + left. rewrite fmap_cons. apply not_elem_of_cons. split; [simpl; congruence|done].
    + right. exists ((b, e) :: l1), a, l2. split; [done|].
      rewrite fmap_cons. apply not_elem_of_cons. split; [simpl; congruence|done].
Qed.

(** Every call keeps the invariants of the specification. *)
Lemma call_preserves s q fuel (c : @call W) :
  queue_inv s q → call_ok s q fuel c →
  ∃ s', do_call fuel q c s = Ok tt s' ∧ queue_inv s' q.
Proof.
  intros Hinv (r & Hr & Hfuel & Hc).
  destruct (inv_rep s q Hinv) as (rc & l & Hrep & Hlen & He).
  rewrite (He r Hr) in Hfuel, Hc. assert (Hf : (length l ≤ fuel)%nat) by lia.
  clear He Hr Hfuel r.
  destruct c as [d a|d a| |d|f u|f u g|f u| |]; cbn [do_call].
  - destruct (Z.eq_dec a NULL) as [->|Ha].
    + erewrite bind_ok by apply push_head_null. by exists s.
    + destruct Hc as [?|[Hfresh Hroom]]; [done|].
      destruct (push_head_rep s q rc l d a Hrep Ha Hfresh) as (s' & Hrun & Hrep' & _).
      erewrite bind_ok by exact Hrun. exists s'. split; [done|].
      apply (rep_inv _ _ _ _ Hrep'). cbn [length]. lia.
  - destruct (Z.eq_dec a NULL) as [->|Ha].
    + erewrite bind_ok by apply push_tail_null. by exists s.
    + destruct Hc as [?|[Hfresh Hroom]]; [done|].
      destruct (push_tail_rep s q rc l d a Hrep Ha Hfresh) as (s' & Hrun & Hrep' & _).
      erewrite bind_ok by exact Hrun. exists s'. split; [done|].
      apply (rep_inv _ _ _ _ Hrep'). rewrite length_app. simpl. lia.
  - destruct l as [|[a d] l].
    + erewrite bind_ok by apply (pop_head_nil _ _ _ _ Hrep). by exists s.
    + destruct (pop_head_rep s q rc a d l Hrep) as (s' & Hrun & Hrep' & _).
      erewrite bind_ok by exact Hrun. exists s'. split; [done|].
      apply (rep_inv _ _ _ _ Hrep'). simpl in Hlen. lia.
  - destruct (Z.eq_dec d NULL) as [->|Hd].
    { erewrite bind_ok by apply remove_null. by exists s. }
    destruct (data_split d l) as [Hnd|(l1 & a & l2 & -> & Hnd)].
    + erewrite bind_ok by by apply (remove_missing _ _ _ _ _ _ _ Hrep). by exists s.
    + rewrite length_app in Hf, Hlen. simpl in Hf, Hlen.
      destruct (remove_rep s q rc l1 a d l2 fuel Hrep Hd Hnd) as (s' & Hrun & Hrep' & _); [lia|].
      erewrite bind_ok by exact Hrun. exists s'. split; [done|].
      apply (rep_inv _ _ _ _ Hrep'). rewrite length_app. lia.
  - destruct f as [p|]; cbn [fmap option_fmap option_map].
    2:{ unfold queue_remove_if. destruct Hrep as (Hq & _). ifs. by exists s. }
    destruct (first_match_split p u l) as [Hall|(l1 & a & d & l2 & -> & Hall & Hp)].
    + erewrite bind_ok by by apply (remove_if_missing _ _ _ _ _ _ _ _ Hrep). by exists s.
    + rewrite length_app in Hf, Hlen. simpl in Hf, Hlen.
      destruct (remove_if_rep s q rc p u l1 a d l2 fuel Hrep Hall Hp) as (s' & Hrun & Hrep' & _); [lia|].
      erewrite bind_ok by exact Hrun. exists s'. split; [done|].
      apply (rep_inv _ _ _ _ Hrep'). rewrite length_app. lia.
  - destruct f as [p|]; cbn [fmap option_fmap option_map].
    + destruct (remove_all_match_rep p u g s q rc l fuel Hrep Hf) as (s' & Hrun & Hrep' & _).
      erewrite bind_ok by exact Hrun. exists s'. split; [done|].
      apply (rep_inv _ _ _ _ Hrep'). pose proof (filter_split_length p u l). lia.
    + erewrite bind_ok by by apply (remove_all_clear_at _ _ _ _ _ _ _ _ Hrep).
      eexists. split; [reflexivity|]. apply (rep_inv _ q rc []); [|done].
      destruct Hrep as (Hq & _). split; [done|split]; [done|]. simpl.
      by rewrite lookup_insert_eq.
  - destruct (find_at s q rc l _ f u fuel Hrep Hf) as (r & Hrun).
    erewrite bind_ok by exact Hrun. by exists s.
  - erewrite bind_ok by apply (peek_head_at _ _ _ _ _ Hrep). by exists s.
  - erewrite bind_ok by apply (peek_tail_at _ _ _ _ _ Hrep). by exists s.
Qed.

(** *** Runs of pushes and pops *)

Lemma bind_ext {A B} (c : @M W A) (k1 k2 : A → @M W B) s :
  (∀ a s', k1 a s' = k2 a s') → bind c k1 s = bind c k2 s.
Proof. intros Hk. unfold bind. by destruct (c s). Qed.

Lemma run_app q (o1 o2 : list op) s :
  run q (o1 ++ o2) s =
  bind (run q o1) (λ r1, bind (run q o2) (λ r2, ret (r1.1 + r2.1, r1.2 + r2.2))) s.
Proof.
  revert s. induction o1 as [|o o1 IH]; intros s.
  - cbn [app run]. erewrite (bind_ok (ret (0, 0))) by reflexivity.
    unfold bind, ret. destruct (run q o2 s) as [[a b] s'| |]; done.
  - cbn [app run]. rewrite bind_assoc. apply bind_ext. intros [a b] s1.
    unfold bind at 1. rewrite IH. unfold bind, ret.
    destruct (run q o1 s1) as [[a1 b1] s2| |]; [|done..].
    destruct (run q o2 s2) as [[a2 b2] s3| |]; [|done..].
    simpl. do 2 f_equal; lia.
Qed.

Lemma exec_op_rep s q rc l (o : op) :
  queue_rep s q rc l →
  match o with
  | Op_push_head _ a | Op_push_tail _ a => a = NULL ∨ entry_mem s !! a = None
  | Op_pop_head => True
  end →
  ∃ pu po s' l', exec_op q o s = Ok (pu, po) s' ∧ queue_rep s' q rc l' ∧
                 Z.of_nat (length l') = Z.of_nat (length l) + pu - po.
Proof.
  intros Hrep Ho. destruct o as [d a|d a|]; cbn [exec_op].
  - destruct (Z.eq_dec a NULL) as [->|Ha].
    + erewrite bind_ok by apply push_head_null. exists 0, 0, s, l.
      split; [done|split; [done|lia]].
    + destruct Ho as [?|Hfresh]; [done|].
      destruct (push_head_rep s q rc l d a Hrep Ha Hfresh) as (s' & Hrun & Hrep' & _).
      erewrite bind_ok by exact Hrun. exists 1, 0, s', ((a, d) :: l).
      split; [done|split; [done|simpl; lia]].
  - destruct (Z.eq_dec a NULL) as [->|Ha].
    + erewrite bind_ok by apply push_tail_null. exists 0, 0, s, l.
      split; [done|split; [done|lia]].
    + destruct Ho as [?|Hfresh]; [done|].
      destruct (push_tail_rep s q rc l d a Hrep Ha Hfresh) as (s' & Hrun & Hrep' & _).
      erewrite bind_ok by exact Hrun. exists 1, 0, s', (l ++ [(a, d)]).
      split; [done|split; [done|rewrite length_app; simpl; lia]].
  - pose proof Hrep as (Hq & Hl & Hr). step. destruct l as [|[a d] l].
    + erewrite bind_ok by apply (pop_head_nil _ _ _ _ Hrep). exists 0, 0, s, [].
      split; [done|split; [done|lia]].
    + destruct (pop_head_rep s q rc a d l Hrep) as (s' & Hrun & Hrep' & _).
      erewrite bind_ok by exact Hrun. destruct Hl as (Ha & _). cbn [addr_or]. ifs.
      exists 0, 1, s', l. split; [done|split; [done|simpl; lia]].
Qed.

(** A run keeps the queue well formed, and the number of its nodes is the
    number of pushes that succeeded less the number of pops that found a
    node. *)
Lemma run_rep q rc (ops : list op) :
  ∀ s l, queue_rep s q rc l → allocs_fresh q ops s →
  ∃ pu po s' l', run q ops s = Ok (pu, po) s' ∧ queue_rep s' q rc l' ∧
                 Z.of_nat (length l') = Z.of_nat (length l) + pu - po.
Proof.
  induction ops as [|o ops IH]; intros s l Hrep Hfresh.
  - exists 0, 0, s, l. split; [done|split; [done|lia]].
  - destruct Hfresh as [Ho Hfresh].
    destruct (exec_op_rep s q rc l o Hrep Ho) as (pu & po & s1 & l1 & Hrun & Hrep1 & Hlen1).
    rewrite Hrun in Hfresh.
    destruct (IH s1 l1 Hrep1 Hfresh) as (pu' & po' & s2 & l2 & Hrun' & Hrep2 & Hlen2).
    cbn [run]. erewrite bind_ok by exact Hrun. erewrite bind_ok by exact Hrun'.
    exists (pu + pu'), (po + po'), s2, l2. split; [done|split; [done|lia]].
Qed.

Lemma length_rep s q rc l :
  queue_rep s q rc l → queue_length q s = Ok (uint (Z.of_nat (length l))) s.
Proof.
  intros (Hq & Hl & Hr). unfold queue_length. ifs.
  by rewrite (get_entries_ok _ _ _ Hq Hr).
Qed.

Lemma isempty_rep s q rc l :
  queue_rep s q rc l →
  queue_isempty q s = Ok (uint (Z.of_nat (length l)) =? 0) s.
Proof.
  intros (Hq & Hl & Hr). unfold queue_isempty. ifs. by step.
Qed.

Lemma allocs_fresh_app q (o1 o2 : list op) s :
  allocs_fresh q o1 s →
  (∀ r s1, run q o1 s = Ok r s1 → allocs_fresh q o2 s1) →
  allocs_fresh q (o1 ++ o2) s.
Proof.
  revert s. induction o1 as [|o o1 IH]; intros s H1 H2.
  - by apply (H2 (0, 0)).
  - destruct H1 as [Ho H1]. split; [done|].
    destruct (exec_op q o s) as [r s'| |] eqn:He; [|done..].
    apply IH; [done|]. intros r1 s1 Hrun. apply (H2 (r.1 + r1.1, r.2 + r1.2)).
    cbn [run]. erewrite bind_ok by exact He. by erewrite bind_ok by exact Hrun.
Qed.

(** [n] pushes at the tail into an empty store: all succeed. *)
Lemma tail_pushes_run q rc s n :
  queue_rep s q rc [] → (∀ b, entry_mem s !! b = None) →
  ∃ s' l, run q (tail_pushes n) s = Ok (Z.of_nat n, 0) s' ∧
          allocs_fresh q (tail_pushes n) s ∧
          queue_rep s' q rc l ∧ length l = n ∧
          (∀ b, Z.of_nat n < b → entry_mem s' !! b = None).
Proof.
  intros Hrep Hempty. induction n as [|n IH].
  - exists s, []. by split_and!.
  - destruct IH as (s1 & l & Hrun & Hfresh & Hrep1 & Hlen & Hfree).
    assert (Ha : Z.of_nat (S n) ≠ NULL) by (unfold NULL; lia).
    assert (Hfa : entry_mem s1 !! Z.of_nat (S n) = None) by (apply Hfree; lia).
    destruct (push_tail_rep s1 q rc l NULL _ Hrep1 Ha Hfa) as (s2 & Hpush & Hrep2 & _ & Hfree2).
    exists s2, (l ++ [(Z.of_nat (S n), NULL)]).
    split; [|split; [|split; [done|split]]].
    + cbn [tail_pushes]. rewrite run_app. erewrite bind_ok by exact Hrun.
      cbn [run exec_op]. rewrite !bind_assoc. erewrite bind_ok by exact Hpush.
      unfold bind, ret. simpl. do 2 f_equal. lia.
    + cbn [tail_pushes]. apply allocs_fresh_app; [done|].
      intros r s1' Hrun'. rewrite Hrun in Hrun'. injection Hrun' as _ <-.
      split; [by right|]. by destruct (exec_op _ _ _).
    + rewrite length_app. simpl. lia.
    + intros b Hb. apply Hfree2; [lia|]. apply Hfree. lia.
Qed.

Lemma tail_pushes_run_Z q rc s z :
  0 ≤ z → queue_rep s q rc [] → (∀ b, entry_mem s !! b = None) →
  ∃ s' l, run q (tail_pushes (Z.to_nat z)) s = Ok (z, 0) s' ∧
          allocs_fresh q (tail_pushes (Z.to_nat z)) s ∧
          queue_rep s' q rc l ∧ Z.of_nat (length l) = z ∧
          (∀ b, z < b → entry_mem s' !! b = None).
Proof.
  intros Hz Hrep Hempty.
  destruct (tail_pushes_run q rc s (Z.to_nat z) Hrep Hempty)
    as (s' & l & Hrun & Hfresh & Hrep' & Hlen & Hfree).
  rewrite Z2Nat.id in Hrun, Hfree by done.
  exists s', l. split_and!; try done. rewrite Hlen. by apply Z2Nat.id.
Qed.

End Invariants.

(** ** Destruction of the queue from inside an iteration *)

Section Destruction.
Context {W : Type}.
Implicit Types (s : @state W) (m : gmap Z queue_entry) (l : list (Z * Z)).

Lemma queue_destroy_loop_ok (f : option (Z → W → W)) l s fuel :
  lseg (entry_mem s) l NULL → (length l ≤ fuel)%nat →
  queue_destroy_loop fuel (world_destroy <$> f) (addr_or l NULL) s =
    Ok tt (State (free_all l (entry_mem s)) (queue_mem s) (destroy_all f l.*2 (world s))).
Proof.
  revert s fuel. induction l as [|[a d] l IH]; intros s fuel Hl Hf.
  - destruct s, f, fuel; done.
  - destruct fuel as [|fuel]; [simpl in Hf; lia|]. simpl in Hf.
    destruct (lseg_mid_notin _ [] _ _ _ Hl) as [_ Hni].
    destruct Hl as (Ha & Hm & Hl).
    rewrite fmap_cons, (destroy_all_cons f d).
    cbn [queue_destroy_loop addr_or]. ifs.
    rewrite (world_destroy_step f a d (addr_or l NULL)) by done.
    do 2 step. rewrite IH; [|by apply lseg_delete_notin|lia]. done.
Qed.

Lemma destroy_on_skip s q B (f : Z → Z → W → W) G d u fuel :
  d ≠ B →
  destroy_on fuel q B f G d u s =
    Ok tt (State (entry_mem s) (queue_mem s) (f d u (world s))).
Proof.
  intros Hne. unfold destroy_on. unfold act at 1. step.
  by rewrite (proj2 (Z.eqb_neq d B)) by done.
Qed.

(** The callback [destroy_on] on the handle [B]: every node is freed, the
    reference count goes down by one, and head and tail are left as they
    were. *)
Lemma destroy_on_hit s q rc l n B (f : Z → Z → W → W) (g : option (Z → W → W)) u fuel :
  queue_at s q rc l n → 2 ≤ rc ≤ INT_MAX → (length l ≤ fuel)%nat →
  destroy_on fuel q B f (world_destroy <$> g) B u s =
    Ok tt (State (free_all l (entry_mem s))
             (<[q := Queue (rc - 1) (addr_or l NULL) (last_addr l) n]> (queue_mem s))
             (destroy_all g l.*2 (f B u (world s)))).
Proof.
  intros (Hq & Hl & Hr) Hrc Hf. unfold INT_MAX in Hrc.
  unfold destroy_on. unfold act at 1. step. rewrite ?Z.eqb_refl.
  unfold queue_destroy. ifs. step.
  erewrite bind_ok by by apply queue_destroy_loop_ok.
  unfold queue_unref. do 2 step. rewrite sint_id by lia.
  by rewrite (proj2 (Z.eqb_neq (rc - 1) 0)) by lia.
Qed.

(** After the nodes are freed the head field still points at the first
    of them, and the walk of [queue_find_entry] reads it. *)
Lemma find_entry_dangling s q r a p fuel :
  q ≠ NULL → queue_mem s !! q = Some r → head r = a →
  a ≠ NULL → a ≠ p → entry_mem s !! a = None → (0 < fuel)%nat →
  queue_find_entry fuel q p s = Fault.
Proof.
  intros Hq Hr Hh Ha Hap Hfreed Hf. unfold queue_find_entry. step. rewrite Hh.
  destruct fuel as [|fuel]; [lia|]. cbn [queue_find_entry_loop]. ifs.
  rewrite (proj2 (Z.eqb_neq a p)) by done.
  unfold bind at 1, get_next at 1, bind at 1, load_entry at 1. ifs. by rewrite Hfreed.
Qed.

(** The loop of [queue_foreach] under [destroy_on]: [vis] are the entries
    visited, [pre] those still to visit before the one that holds [B]. *)
Lemma foreach_destroy_loop q rc cnt B (f : Z → Z → W → W) (g : option (Z → W → W))
    u fuel nB rest pre :
  ∀ vis s n,
  queue_at s q rc (vis ++ pre ++ (nB, B) :: rest) cnt → 2 ≤ rc ≤ INT_MAX →
  B ∉ pre.*2 → (length (pre ++ (nB, B) :: rest) ≤ n)%nat →
  (length (vis ++ pre ++ (nB, B) :: rest) ≤ fuel)%nat →
  queue_foreach_loop fuel n q (destroy_on fuel q B f (world_destroy <$> g)) u
    (addr_or (pre ++ (nB, B) :: rest) NULL) s = Fault.
Proof.
  induction pre as [|[x dx] pre IH]; intros vis s n Hat Hrc Hnd Hn Hf.
  - destruct n as [|n]; [simpl in Hn; lia|].
    cbn [app] in *. destruct (queue_at_entry _ _ _ _ _ _ _ _ Hat) as [HB HmB].
    pose proof Hat as (Hq & Hl & Hr).
    cbn [queue_foreach_loop addr_or]. ifs. step.
    rewrite (proj2 (Z.ltb_lt 1 rc)) by lia. cbn [negb]. do 2 step.
    erewrite bind_ok by by apply (destroy_on_hit _ _ _ _ _ _ _ _ _ _ Hat).
    unfold bind at 1.
    destruct (vis ++ (nB, B) :: rest) as [|[a da] L'] eqn:HL.
    { by destruct vis. }
    destruct (lseg_mid_notin _ [] _ _ _ Hl) as [_ HnA]. pose proof Hl as (Ha & _).
    erewrite (find_entry_dangling _ q _ a); [done|done|by simpl; rewrite lookup_insert_eq|done|done| |
      by apply free_all_lookup_in; left|simpl in Hf; lia].
    destruct rest as [|[c dc] rest]; [done|]. cbn [addr_or].
    intros ->. apply HnA.
    destruct vis as [|v vis]; inversion HL; subst.
    + rewrite fmap_cons. left.
    + rewrite fmap_app, !fmap_cons. apply elem_of_app. right. right. left.
  - destruct n as [|n]; [simpl in Hn; lia|]. simpl in Hn.
    rewrite fmap_cons in Hnd. apply not_elem_of_cons in Hnd as [Hne Hnd]. simpl in Hne.
    destruct (queue_at_entry _ _ _ _ _ _ _ _ Hat) as [Hx Hmx].
    cbn [app] in *. cbn [queue_foreach_loop addr_or]. ifs.
    pose proof Hat as (Hq & Hl & Hr). step.
    rewrite (proj2 (Z.ltb_lt 1 rc)) by lia. cbn [negb]. do 2 step.
    erewrite bind_ok by (apply destroy_on_skip; congruence).
    erewrite bind_ok by (eapply (find_entry_at _ q rc _ cnt _ fuel); [exact Hat|done]).
    rewrite bool_decide_eq_true_2.
    + cbn [negb]. apply (IH (vis ++ [(x, dx)])); try done.
      * by rewrite <- app_assoc.
      * lia.
      * by rewrite <- app_assoc.
    + rewrite !fmap_app, fmap_cons, fmap_app. apply elem_of_app. right. right.
      apply elem_of_app. destruct pre as [|[y dy] pre]; [right|left]; left.
Qed.

End Destruction.

(** ** Iteration with callbacks that leave the queue alone *)

Section Quiet_callbacks.
Context {W : Type}.
Implicit Types (s : @state W) (m : gmap Z queue_entry) (l : list (Z * Z)).


Lemma state_eta s : State (entry_mem s) (queue_mem s) (world s) = s.
Proof. by destruct s. Qed.

(** The loop of [queue_foreach] walks over entries on which the callback is
    quiet, as long as an entry follows them. *)
Lemma foreach_loop_skip q rc cnt cb (f : Z → Z → W → W) u fuel mid :
  ∀ vis rest s n,
  queue_at s q rc (vis ++ mid ++ rest) cnt → 1 < rc →
  quiet_on cb f u mid.*2 → rest ≠ [] →
  (length mid ≤ n)%nat → (length (vis ++ mid ++ rest) ≤ fuel)%nat →
  queue_foreach_loop fuel n q cb u (addr_or (mid ++ rest) NULL) s =
  queue_foreach_loop fuel (n - length mid) q cb u (addr_or rest NULL)
    (State (entry_mem s) (queue_mem s) (foldl (λ w d, f d u w) (world s) mid.*2)).
Proof.
  induction mid as [|[x dx] mid IH]; intros vis rest s n Hat Hrc Hcb Hrest Hn Hf.
  - simpl. by rewrite Nat.sub_0_r, state_eta.
  - destruct n as [|n]; [simpl in Hn; lia|]. simpl in Hn.
    destruct (queue_at_entry _ _ _ _ _ _ _ _ Hat) as [Hx Hmx].
    pose proof Hat as (Hq & Hl & Hr).
    cbn [app queue_foreach_loop addr_or]. ifs. step.
    rewrite (proj2 (Z.ltb_lt 1 rc)) by done. cbn [negb]. do 2 step.
    erewrite bind_ok by (apply Hcb; rewrite fmap_cons; left).
    erewrite bind_ok by (eapply (find_entry_at _ q rc _ cnt _ fuel); [exact Hat|done]).
    rewrite bool_decide_eq_true_2.
    + cbn [negb]. specialize (IH (vis ++ [(x, dx)]) rest).
      rewrite <- !app_assoc in IH. cbn [app] in IH.
      rewrite IH; try done; [|lia].
      intros y s0 Hy. apply Hcb. rewrite fmap_cons. by right.
    + rewrite !fmap_app, fmap_cons. apply elem_of_app. right. right.
      destruct mid as [|[y dy] mid]; [|left].
      destruct rest as [|[y dy] rest]; [done|left].
Qed.

(** ... and to the end of the queue when none follows. *)
Lemma foreach_loop_skip_end q rc cnt cb (f : Z → Z → W → W) u fuel mid :
  ∀ vis s n,
  queue_at s q rc (vis ++ mid) cnt → 1 < rc →
  quiet_on cb f u mid.*2 →
  (length mid ≤ n)%nat → (length (vis ++ mid) ≤ fuel)%nat →
  queue_foreach_loop fuel n q cb u (addr_or mid NULL) s =
  Ok tt (State (entry_mem s) (queue_mem s) (foldl (λ w d, f d u w) (world s) mid.*2)).
Proof.
  induction mid as [|[x dx] mid IH]; intros vis s n Hat Hrc Hcb Hn Hf.
  - destruct n; simpl; by rewrite state_eta.
  - destruct n as [|n]; [simpl in Hn; lia|]. simpl in Hn.
    destruct (queue_at_entry _ _ _ _ _ _ _ _ Hat) as [Hx Hmx].
    pose proof Hat as (Hq & Hl & Hr).
    cbn [queue_foreach_loop addr_or]. ifs. step.
    rewrite (proj2 (Z.ltb_lt 1 rc)) by done. cbn [negb]. do 2 step.
    erewrite bind_ok by (apply Hcb; rewrite fmap_cons; left).
    erewrite bind_ok by (eapply (find_entry_at _ q rc _ cnt _ fuel); [exact Hat|done]).
    destruct mid as [|[y dy] mid].
    + rewrite bool_decide_eq_false_2; [done|].
      intros Hin. by destruct (lseg_lookup _ _ _ _ Hl Hin).
    + rewrite bool_decide_eq_true_2.
      * cbn [negb]. specialize (IH (vis ++ [(x, dx)])).
        rewrite <- !app_assoc in IH. cbn [app] in IH.
        rewrite IH; try done; [|simpl in *; lia].
        intros z s0 Hz. apply Hcb. rewrite fmap_cons. by right.
      * rewrite !fmap_app, !fmap_cons. apply elem_of_app. right. right. left.
Qed.

Lemma visit_quiet (f : Z → Z → W → W) u ds : quiet_on (visit f) f u ds.
Proof. by intros x s _. Qed.

Lemma remove_other_on_quiet fuel q A B (f : Z → Z → W → W) u ds :
  A ∉ ds → quiet_on (remove_other_on fuel q A B f) f u ds.
Proof.
  intros HA x s Hx. unfold remove_other_on. unfold act at 1. step.
  rewrite (proj2 (Z.eqb_neq x A)); [done|]. by intros ->.
Qed.

Lemma push_tail_on_quiet q B d' a (f : Z → Z → W → W) u ds :
  B ∉ ds → quiet_on (push_tail_on q B d' a f) f u ds.
Proof.
  intros HB x s Hx. unfold push_tail_on. unfold act at 1. step.
  rewrite (proj2 (Z.eqb_neq x B)); [done|]. by intros ->.
Qed.

(** Taking and giving back the reference of [queue_foreach]. *)
Lemma ref_unref_id (qm : gmap Z queue) q rc h t n :
  qm !! q = Some (Queue rc h t n) →
  <[q := Queue rc h t n]> (<[q := Queue (rc + 1) h t n]> qm) = qm.
Proof. intros Hq. by rewrite insert_insert_eq, insert_id. Qed.

End Quiet_callbacks.

(** ** Iteration with a callback that appends an entry *)

Section Iteration_frame.
Context {W : Type}.
Implicit Types (s : @state W) (m : gmap Z queue_entry) (l : list (Z * Z)).

(** [queue_foreach] around its loop: the reference is taken before and
    given back after; the queue is not freed. *)
Lemma foreach_frame s q rc l cnt cb u fuel s1 l1 cnt1 :
  queue_at s q rc l cnt → l ≠ [] → 1 ≤ rc < INT_MAX →
  queue_foreach_loop fuel fuel q cb u (addr_or l NULL)
    (State (entry_mem s)
       (<[q := Queue (rc + 1) (addr_or l NULL) (last_addr l) cnt]> (queue_mem s))
       (world s)) = Ok tt s1 →
  queue_at s1 q (rc + 1) l1 cnt1 →
  queue_foreach fuel q (Some cb) u s =
    Ok tt (State (entry_mem s1)
             (<[q := Queue rc (addr_or l1 NULL) (last_addr l1) cnt1]> (queue_mem s1))
             (world s1)).
Proof.
  intros (Hq & Hl & Hr) Hne Hrc Hloop (_ & Hl1 & Hr1). unfold INT_MAX in Hrc.
  assert (Hh : addr_or l NULL ≠ NULL).
  { destruct l as [|[a d] l]; [done|]. by destruct Hl. }
  unfold queue_foreach. ifs. step.
  unfold queue_ref. ifs. do 5 step. rewrite sint_id by lia.
  erewrite bind_ok by exact Hloop.
  unfold queue_unref. do 2 step.
  replace (rc + 1 - 1) with rc by lia. rewrite sint_id by lia.
  by rewrite (proj2 (Z.eqb_neq rc 0)) by lia.
Qed.

Lemma ref_at s q rc l cnt :
  queue_at s q rc l cnt →
  queue_at (State (entry_mem s)
              (<[q := Queue (rc + 1) (addr_or l NULL) (last_addr l) cnt]> (queue_mem s))
              (world s)) q (rc + 1) l cnt.
Proof.
  intros (Hq & Hl & Hr). split; [done|split]; [done|]. simpl. by rewrite lookup_insert_eq.
Qed.


Lemma foreach_frame_rep s q rc l cb u fuel s1 l1 :
  queue_rep s q rc l → l ≠ [] → 1 ≤ rc < INT_MAX →
  queue_foreach_loop fuel fuel q cb u (addr_or l NULL)
    (State (entry_mem s)
       (<[q := Queue (rc + 1) (addr_or l NULL) (last_addr l)
                (uint (Z.of_nat (length l)))]> (queue_mem s))
       (world s)) = Ok tt s1 →
  queue_rep s1 q (rc + 1) l1 →
  ∃ s', queue_foreach fuel q (Some cb) u s = Ok tt s' ∧
        queue_rep s' q rc l1 ∧ world s' = world s1.
Proof.
  intros Hrep Hne Hrc Hloop Hrep1.
  rewrite (foreach_frame s q rc l _ cb u fuel s1 l1 _ Hrep Hne Hrc Hloop Hrep1).
  eexists. split; [reflexivity|]. split; [|done].
  destruct Hrep1 as (Hq & Hl1 & Hr1). split; [done|split]; [done|].
  simpl. by rewrite lookup_insert_eq.
Qed.


(** One visit of the entry holding [B] under [push_tail_on]: the node is
    appended, and the walk goes on to the cursor read before the call. *)
Lemma push_tail_on_step s q rc pre b B rest d' new0 (f : Z → Z → W → W) u fuel n :
  queue_rep s q rc (pre ++ (b, B) :: rest) → 1 < rc ≤ INT_MAX →
  new0 ≠ NULL → entry_mem s !! new0 = None →
  (S (length (pre ++ (b, B) :: rest)) ≤ fuel)%nat →
  ∃ s2, queue_rep s2 q rc ((pre ++ (b, B) :: rest) ++ [(new0, d')]) ∧
        world s2 = f B u (world s) ∧
        queue_foreach_loop fuel (S n) q (push_tail_on q B d' new0 f) u b s =
        match rest with
        | [] => Ok tt s2
        | _ => queue_foreach_loop fuel n q (push_tail_on q B d' new0 f) u
                 (addr_or rest NULL) s2
        end.
Proof.
  intros Hrep Hrc Ha Hfresh Hf.
  destruct (queue_at_entry _ _ _ _ _ _ _ _ Hrep) as [Hb Hmb].
  pose proof Hrep as (Hq & Hl & Hr).
  destruct (push_tail_rep (State (entry_mem s) (queue_mem s) (f B u (world s)))
              q rc (pre ++ (b, B) :: rest) d' new0 Hrep Ha Hfresh)
    as (s2 & Hpush & Hrep2 & Hw2 & _).
  exists s2. split; [done|]. split; [done|].
  cbn [queue_foreach_loop]. ifs. step.
  rewrite (proj2 (Z.ltb_lt 1 rc)) by lia. cbn [negb]. do 2 step.
  unfold push_tail_on at 1. unfold act at 1. step. rewrite ?Z.eqb_refl. do 2 step.
  erewrite bind_ok by exact Hpush. step.
  erewrite bind_ok by (apply (find_entry_at s2 q rc _ _ _ fuel Hrep2);
                       rewrite length_app; simpl; lia).
  destruct rest as [|[c dc] rest].
  - rewrite bool_decide_eq_false_2; [done|].
    intros Hin. destruct Hrep2 as (_ & Hl2 & _).
    by destruct (lseg_lookup _ _ _ _ Hl2 Hin).
  - rewrite bool_decide_eq_true_2; [done|].
    rewrite !fmap_app, !fmap_cons. apply elem_of_app. left.
    apply elem_of_app. right. right. left.
Qed.

Lemma foreach_push_loop s q rc pre b B rest d' new0 (f : Z → Z → W → W) u fuel :
  queue_rep s q rc (pre ++ (b, B) :: rest) → 1 < rc ≤ INT_MAX →
  B ∉ pre.*2 → B ∉ rest.*2 → (rest ≠ [] → d' ≠ B) →
  new0 ≠ NULL → entry_mem s !! new0 = None →
  (S (length (pre ++ (b, B) :: rest)) ≤ fuel)%nat →
  ∃ s1, queue_foreach_loop fuel fuel q (push_tail_on q B d' new0 f) u
          (addr_or (pre ++ (b, B) :: rest) NULL) s = Ok tt s1 ∧
        queue_rep s1 q rc ((pre ++ (b, B) :: rest) ++ [(new0, d')]) ∧
        world s1 =
          foldl (λ w d, f d u w) (world s)
            ((pre ++ [(b, B)]).*2 ++ match rest with [] => [] | _ => rest.*2 ++ [d'] end).
Proof.
  intros Hrep Hrc HBpre HBrest Hd Ha Hfresh Hf.
  rewrite (foreach_loop_skip q rc _ _ f u fuel pre [] _ _ _ Hrep);
    [|lia|by apply push_tail_on_quiet|done|
     rewrite length_app in Hf; lia|simpl; lia].
  rewrite length_app in Hf. simpl in Hf.
  destruct (fuel - length pre)%nat as [|n] eqn:Hn; [lia|].
  cbn [addr_or].
  match goal with |- context [queue_foreach_loop _ _ _ _ _ _ ?s0] =>
    destruct (push_tail_on_step s0 q rc pre b B rest d' new0 f u fuel n)
      as (s2 & Hrep2 & Hw2 & Hstep); [exact Hrep|done|done|done| |]
  end.
  { rewrite length_app. simpl. lia. }
  rewrite Hstep. simpl in Hw2.
  destruct rest as [|c rest].
  - exists s2. split; [done|]. split; [done|].
    rewrite Hw2, app_nil_r, fmap_app, foldl_app. done.
  - replace (addr_or (c :: rest) NULL) with (addr_or ((c :: rest) ++ [(new0, d')]) NULL)
      by by destruct c.
    pose proof Hrep2 as Hrep2'.
    rewrite <- app_assoc in Hrep2'. cbn [app] in Hrep2'.
    change (pre ++ (b, B) :: c :: rest ++ [(new0, d')])
      with (pre ++ [(b, B)] ++ (c :: rest) ++ [(new0, d')]) in Hrep2'.
    rewrite app_assoc in Hrep2'.
    rewrite (foreach_loop_skip_end q rc _ _ f u fuel ((c :: rest) ++ [(new0, d')])
               (pre ++ [(b, B)]) s2 n Hrep2').
    + eexists. split; [reflexivity|]. split.
      * exact Hrep2.
      * simpl. rewrite Hw2, !fmap_app, !foldl_app. simpl. by rewrite foldl_app.
    + lia.
    + apply push_tail_on_quiet. rewrite fmap_app. apply not_elem_of_app.
      split; [done|]. simpl. apply not_elem_of_cons. split; [by intros ->; apply Hd|].
      by intros ?%elem_of_nil.
    + simpl in Hf. rewrite !length_app. simpl. rewrite ?length_app. simpl. lia.
    + simpl in Hf. rewrite !length_app. simpl. rewrite ?length_app. simpl. lia.
Qed.

End Iteration_frame.

(** ** Repeated pops, and the first match of a search *)

Section Pops_and_searches.
Context {W : Type}.
Implicit Types (s : @state W) (m : gmap Z queue_entry) (l : list (Z * Z)).

Lemma pop_many_rep q rc l :
  ∀ s, queue_rep s q rc l →
  ∃ s', queue_pop_many (length l) q s = Ok l.*2 s' ∧
        queue_rep s' q rc [] ∧ world s' = world s ∧
        entry_mem s' = free_all l (entry_mem s).
Proof.
  induction l as [|[a d] l IH]; intros s Hrep.
  - by exists s.
  - destruct (pop_head_rep s q rc a d l Hrep) as (s1 & Hpop & Hrep1 & Hw1 & Hm1).
    destruct (IH s1 Hrep1) as (s' & Hrun & Hrep' & Hw' & Hm').
    exists s'. cbn [length queue_pop_many].
    erewrite bind_ok by exact Hpop. erewrite bind_ok by exact Hrun.
    split; [done|]. split; [done|]. split; [congruence|].
    rewrite Hm', Hm1. done.
Qed.

Lemma find_loop_exact s l (p : Z → Z → bool) u fuel :
  lseg (entry_mem s) l NULL → (length l ≤ fuel)%nat →
  queue_find_loop fuel (pure_match p) u (addr_or l NULL) s =
    Ok (first_match p u l.*2) s.
Proof.
  revert fuel. induction l as [|[a d] l IH]; intros fuel Hl Hf.
  - by destruct fuel.
  - destruct Hl as (Ha & Hm & Hl). destruct fuel as [|fuel]; [simpl in Hf; lia|].
    simpl in *. ifs. step. unfold pure_match at 1. step.
    destruct (p d u).
    + by rewrite (get_data_ok _ _ _ Ha Hm).
    + step. apply IH; [done|lia].
Qed.

Lemma drop_first_none (p : Z → Z → bool) u l :
  Forall (λ x, p x.2 u = false) l →
  drop_first p u l = l ∧ first_match p u l.*2 = NULL.
Proof.
  induction 1 as [|[a d] l Hd _ [IH1 IH2]]; [done|].
  rewrite fmap_cons. cbn [drop_first first_match snd] in *. by rewrite Hd, IH1, IH2.
Qed.

Lemma drop_first_split (p : Z → Z → bool) u l1 a d l2 :
  Forall (λ x, p x.2 u = false) l1 → p d u = true →
  drop_first p u (l1 ++ (a, d) :: l2) = l1 ++ l2 ∧
  first_match p u (l1 ++ (a, d) :: l2).*2 = d.
Proof.
  intros Hall Hd. induction Hall as [|[b e] l1 He _ [IH1 IH2]].
  - cbn [app]. rewrite fmap_cons. cbn [drop_first first_match snd]. by rewrite Hd.
  - cbn [app]. rewrite fmap_cons. cbn [app drop_first first_match snd] in *.
    by rewrite He, IH1, IH2.
Qed.

Lemma notin_Forall_eqb (d : Z) l :
  d ∉ l.*2 → Forall (λ x, (x.2 =? d) = false) l.
Proof.
  induction l as [|[b e] l IH]; intros Hni; [constructor|].
  rewrite fmap_cons in Hni. apply not_elem_of_cons in Hni as [Hne Hni].
  constructor; [|by apply IH]. simpl in *. apply Z.eqb_neq. congruence.
Qed.

End Pops_and_searches.

(** * The claims of the specification *)

Section Claims.
Context {W : Type}.
Implicit Types (s : @state W) (l : list (Z * Z)).

(** C1.  [queue_foreach] over a queue that holds [A, B, C, D], with a
    callback that calls [queue_remove] on the entry it is visiting when it
    is given [B].  The callback is invoked on A, on B, on C and on D, once
    each and in that order: its own effect [f] reaches the caller's world
    for A, B, C, D in turn.  The queue keeps the entries that were not
    removed, in order, and its reference count is what it was. *)
Theorem C1_foreach_remove_current s q rc nA nB nC nD A B C D
    (f : Z → Z → W → W) u fuel :
  queue_rep s q rc [(nA, A); (nB, B); (nC, C); (nD, D)] →
  1 ≤ rc < INT_MAX → (4 ≤ fuel)%nat →
  ∃ s', queue_foreach fuel q (Some (remove_on fuel q B f)) u s = Ok tt s' ∧
        world s' = f D u (f C u (f B u (f A u (world s)))) ∧
        queue_rep s' q rc (survivors B [(nA, A); (nB, B); (nC, C); (nD, D)]).
Proof.
  intros Hrep Hrc Hf.
  destruct (foreach_remove_rep s q rc B f u fuel _ Hrep Hrc Hf) as (s' & Hrun & Hrep' & Hw).
  by exists s'.
Qed.

(** C2 (the code departs from the claim).  The claim: when the callback
    of [queue_foreach] calls [queue_destroy] on the queue being iterated,
    the iteration stops there and the queue is released when
    [queue_foreach] returns.  The code: [queue_destroy] frees every node
    and leaves [head] pointing at the first of them; back in
    [queue_foreach], [queue_find_entry] walks from that head before the
    reference count is tested again, and reads the freed node.  Whatever
    the entry [B] at which the callback destroys the queue, the call is
    a [Fault]. *)
Theorem C2_foreach_destroy_faults s q rc pre nB B rest
    (f : Z → Z → W → W) (g : option (Z → W → W)) u fuel :
  queue_rep s q rc (pre ++ (nB, B) :: rest) → B ∉ pre.*2 →
  1 ≤ rc < INT_MAX → (length (pre ++ (nB, B) :: rest) ≤ fuel)%nat →
  queue_foreach fuel q (Some (destroy_on fuel q B f (world_destroy <$> g))) u s = Fault.
Proof.
  intros Hrep Hnd Hrc Hf. pose proof Hrep as (Hq & Hl & Hr).
  assert (Hh : addr_or (pre ++ (nB, B) :: rest) NULL ≠ NULL).
  { destruct pre as [|[a d] pre]; by destruct Hl. }
  unfold INT_MAX in Hrc.
  unfold queue_foreach. ifs. step.
  unfold queue_ref. ifs. do 5 step. rewrite sint_id by lia.
  unfold bind at 1.
  rewrite (foreach_destroy_loop q (rc + 1) (uint (Z.of_nat (length (pre ++ (nB, B) :: rest))))
             B f g u fuel nB rest pre []); try done.
  - split; [done|split]; [done|]. simpl. by rewrite lookup_insert_eq.
  - unfold INT_MAX. lia.
Qed.

(** C3 (amended).  [queue_new] makes a queue that satisfies the structural
    invariants, and every public operation (push_head, push_tail, pop_head,
    remove, remove_if, remove_all, find, peek_head, peek_tail) keeps them;
    a push that allocates a node does so provided the counter has room
    for one more entry ([entries < UINT_MAX]). *)
Theorem C3_invariants_preserved s :
  (∀ new0, new0 ≠ NULL →
     ∃ s', queue_new new0 s = Ok new0 s' ∧ queue_inv s' new0) ∧
  (∀ q fuel (c : call),
     queue_inv s q → call_ok s q fuel c →
     ∃ s', do_call fuel q c s = Ok tt s' ∧ queue_inv s' q).
Proof.
  split.
  - intros a Ha. destruct (queue_new_rep s a Ha) as (s' & Hrun & Hrep & _).
    exists s'. split; [done|]. by apply (rep_inv _ _ _ _ Hrep).
  - intros q fuel c. apply call_preserves.
Qed.

(** C4 (amended).  After any sequence of push_head, push_tail and pop_head
    on a freshly created queue, [queue_length] is the number of successful
    pushes minus the number of pops that found an entry, reduced modulo
    2^32 (the counter is an [unsigned int]); and [queue_isempty] answers
    true exactly when [queue_length] answers 0. *)
Theorem C4_length_counts s new0 s0 (ops : list op) :
  new0 ≠ NULL → queue_new new0 s = Ok new0 s0 → allocs_fresh new0 ops s0 →
  ∃ pushes pops s',
    run new0 ops s0 = Ok (pushes, pops) s' ∧
    0 ≤ pushes - pops ∧
    queue_length new0 s' = Ok (uint (pushes - pops)) s' ∧
    (queue_isempty new0 s' = Ok true s' ↔ queue_length new0 s' = Ok 0 s').
Proof.
  intros Ha Hnew Hfresh.
  destruct (queue_new_rep s new0 Ha) as (s0' & Hnew' & Hrep & _).
  rewrite Hnew in Hnew'. injection Hnew' as <-.
  destruct (run_rep new0 1 ops s0 [] Hrep Hfresh) as (pu & po & s' & l & Hrun & Hrep' & Hlen).
  simpl in Hlen. exists pu, po, s'. split; [done|]. split; [lia|].
  rewrite (length_rep _ _ _ _ Hrep'), (isempty_rep _ _ _ _ Hrep').
  replace (pu - po) with (Z.of_nat (length l)) by lia. split; [done|].
  split.
  - intros Hb. injection Hb as Hb. apply Z.eqb_eq in Hb. by rewrite Hb.
  - intros Hn. injection Hn as Hn. by rewrite Hn.
Qed.

(** C5.  When the allocation of the node fails ([new0] answers [NULL]),
    [queue_push_tail] and [queue_push_head] return false and the whole
    state, the queue with its head, tail, counter and nodes, is what it was
    before the call. *)
Theorem C5_push_alloc_failure s q d :
  queue_push_tail q d NULL s = Ok false s ∧
  queue_push_head q d NULL s = Ok false s.
Proof. split; [apply push_tail_null|apply push_head_null]. Qed.

(** C6.  [queue_find] without a matcher returns [NULL], whatever the queue
    holds: the assignment of [direct_match] behind the guard is never
    reached. *)
Theorem C6_find_without_matcher s fuel q match_data :
  queue_find fuel q None match_data s = Ok NULL s.
Proof. unfold queue_find. by rewrite orb_true_r. Qed.

(** C7.  [queue_remove_all] without a predicate, on a queue with the nodes
    [l]: it returns the number of entries, hands every stored handle to the
    destructor once, head to tail, frees every node, and leaves the queue
    with head and tail absent and length 0. *)
Theorem C7_remove_all_clear s q rc l u (f : Z → W → W) fuel :
  queue_rep s q rc l → Z.of_nat (length l) < UINT_MODULUS → (length l ≤ fuel)%nat →
  ∃ s', queue_remove_all fuel q None u (Some (world_destroy f)) s
        = Ok (Z.of_nat (length l)) s' ∧
        world s' = foldl (λ w d, f d w) (world s) l.*2 ∧
        (∀ a, a ∈ l.*1 → entry_mem s' !! a = None) ∧
        queue_mem s' !! q = Some (Queue rc NULL NULL 0) ∧
        queue_length q s' = Ok 0 s'.
Proof.
  intros Hrep Hlen Hf. pose proof Hrep as (Hq & _).
  pose proof (remove_all_clear_at u (Some f) s q rc _ l fuel Hrep Hf) as Hrun.
  rewrite uint_small in Hrun by lia. eexists. split; [exact Hrun|].
  split; [done|]. split; [|split].
  - intros a Ha. simpl. by apply free_all_lookup_in.
  - simpl. by rewrite lookup_insert_eq.
  - unfold queue_length. ifs.
    rewrite (get_entries_ok _ q (Queue rc NULL NULL 0)); [done|done|].
    simpl. by rewrite lookup_insert_eq.
Qed.

(** C8.  [queue_remove_all] with a predicate [p]: the entries whose handle
    satisfies [p] are unlinked and freed, the destructor (if any) is given
    their handles in head-to-tail order, their number is returned, and the
    queue is left with the other entries in their former order. *)
Theorem C8_remove_all_matching s q rc l (p : Z → Z → bool) u
    (f : option (Z → W → W)) fuel :
  queue_rep s q rc l → Z.of_nat (length l) < UINT_MODULUS → (length l ≤ fuel)%nat →
  let removed := filter (λ x, p x.2 u = true) l in
  let kept := filter (λ x, p x.2 u = false) l in
  ∃ s', queue_remove_all fuel q (Some (pure_match p)) u (world_destroy <$> f) s
        = Ok (Z.of_nat (length removed)) s' ∧
        queue_rep s' q rc kept ∧
        (∀ a, a ∈ removed.*1 → entry_mem s' !! a = None) ∧
        world s' = destroy_all f removed.*2 (world s).
Proof.
  intros Hrep Hlen Hf removed kept.
  destruct (remove_all_match_rep p u f s q rc l fuel Hrep Hf) as (s' & Hrun & Hrep' & Hw & Hfreed).
  pose proof (filter_split_length p u l) as Hsplit.
  rewrite uint_small in Hrun by lia. by exists s'.
Qed.

(** C9.  On a present queue [queue_push_tail] accepts the null handle: once
    the node is allocated it returns true and the queue ends with an entry
    holding [NULL].  Yet [queue_remove] of the null handle returns false
    and changes nothing, even on that queue, which holds a null entry. *)
Theorem C9_null_handle s q rc l new0 fuel :
  queue_rep s q rc l → new0 ≠ NULL → entry_mem s !! new0 = None →
  ∃ s', queue_push_tail q NULL new0 s = Ok true s' ∧
        queue_rep s' q rc (l ++ [(new0, NULL)]) ∧
        queue_peek_tail q s' = Ok NULL s' ∧
        queue_remove fuel q NULL s' = Ok false s'.
Proof.
  intros Hrep Ha Hfresh.
  destruct (push_tail_rep s q rc l NULL new0 Hrep Ha Hfresh) as (s' & Hrun & Hrep' & _).
  exists s'. split; [done|]. split; [done|]. split; [|apply remove_null].
  rewrite (peek_tail_at _ _ _ _ _ Hrep'). by rewrite last_snoc.
Qed.

(** C10.  With a predicate that accepts every handle, [queue_remove_all]
    returns the same count and ends in the same state (queue fields,
    nodes freed, handles given to the destructor in the same order) as
    [queue_remove_all] without a predicate. *)
Theorem C10_remove_all_true_is_clear s q rc l (p : Z → Z → bool) u
    (f : option (Z → W → W)) fuel :
  queue_rep s q rc l → (∀ d, p d u = true) → (length l ≤ fuel)%nat →
  ∃ count s',
    queue_remove_all fuel q (Some (pure_match p)) u (world_destroy <$> f) s = Ok count s' ∧
    queue_remove_all fuel q None u (world_destroy <$> f) s = Ok count s'.
Proof.
  intros Hrep Hp Hf. eexists _, _. split.
  - by apply remove_all_true_at.
  - by eapply remove_all_clear_at.
Qed.

End Claims.

(** * Further properties of the code *)

Section Further_properties.
Context {W : Type}.
Implicit Types (s : @state W) (l : list (Z * Z)).

(** X1.  After a successful [queue_push_tail] of [d], [queue_peek_tail]
    returns [d]; [queue_peek_head] returns what it returned before, or [d]
    if the queue was empty. *)
Theorem X1_push_tail_then_peek s q rc l d new0 :
  queue_rep s q rc l → new0 ≠ NULL → entry_mem s !! new0 = None →
  ∃ s', queue_push_tail q d new0 s = Ok true s' ∧
        queue_peek_tail q s' = Ok d s' ∧
        queue_peek_head q s' = Ok (match l with [] => d | (_, h) :: _ => h end) s'.
Proof.
  intros Hrep Ha Hfresh.
  destruct (push_tail_rep s q rc l d new0 Hrep Ha Hfresh) as (s' & Hrun & Hrep' & _).
  exists s'. split; [done|]. split.
  - rewrite (peek_tail_at _ _ _ _ _ Hrep'). by rewrite last_snoc.
  - rewrite (peek_head_at _ _ _ _ _ Hrep'). by destruct l as [|[a h] l].
Qed.

(** X2.  After a successful [queue_push_head] of [d], [queue_peek_head]
    returns [d]; [queue_peek_tail] returns what it returned before, or [d]
    if the queue was empty. *)
Theorem X2_push_head_then_peek s q rc l d new0 :
  queue_rep s q rc l → new0 ≠ NULL → entry_mem s !! new0 = None →
  ∃ s', queue_push_head q d new0 s = Ok true s' ∧
        queue_peek_head q s' = Ok d s' ∧
        queue_peek_tail q s' =
          Ok (match last l with None => d | Some (_, t) => t end) s'.
Proof.
  intros Hrep Ha Hfresh.
  destruct (push_head_rep s q rc l d new0 Hrep Ha Hfresh) as (s' & Hrun & Hrep' & _).
  exists s'. split; [done|]. split.
  - by rewrite (peek_head_at _ _ _ _ _ Hrep').
  - rewrite (peek_tail_at _ _ _ _ _ Hrep'). destruct l as [|x l]; [done|].
    change (last ((new0, d) :: x :: l)) with (last (x :: l)).
    destruct (last (x :: l)) as [[? ?]|] eqn:E; [done|]. by apply last_None in E.
Qed.

(** X3.  [queue_pop_head] returns the handle [queue_peek_head] shows and
    leaves the entries after the first, in order, freeing the first node;
    on an empty queue both return [NULL] and the state is unchanged. *)
Theorem X3_pop_head_is_peek_head s q rc l :
  queue_rep s q rc l →
  ∃ d s', queue_peek_head q s = Ok d s ∧
          queue_pop_head q s = Ok d s' ∧
          queue_rep s' q rc (drop 1 l) ∧
          entry_mem s' = free_all (take 1 l) (entry_mem s) ∧
          world s' = world s ∧
          (l = [] → d = NULL ∧ s' = s).
Proof.
  intros Hrep. rewrite (peek_head_at _ _ _ _ _ Hrep). destruct l as [|[a d] l].
  - exists NULL, s. rewrite (pop_head_nil _ _ _ _ Hrep). by split_and!.
  - destruct (pop_head_rep s q rc a d l Hrep) as (s' & Hrun & Hrep' & Hw & Hm).
    exists d, s'. by split_and!.
Qed.

(** X4.  First in, first out: after [queue_push_tail] of [d], popping
    every entry returns the handles the queue held, head to tail, and then
    [d]; the queue is left empty and all its nodes freed. *)
Theorem X4_fifo s q rc l d new0 :
  queue_rep s q rc l → new0 ≠ NULL → entry_mem s !! new0 = None →
  ∃ s1 s', queue_push_tail q d new0 s = Ok true s1 ∧
           queue_pop_many (S (length l)) q s1 = Ok (l.*2 ++ [d]) s' ∧
           queue_rep s' q rc [] ∧
           (∀ a, a ∈ new0 :: l.*1 → entry_mem s' !! a = None).
Proof.
  intros Hrep Ha Hfresh.
  destruct (push_tail_rep s q rc l d new0 Hrep Ha Hfresh) as (s1 & Hrun & Hrep1 & _).
  destruct (pop_many_rep q rc _ s1 Hrep1) as (s' & Hpops & Hrep' & _ & Hm).
  rewrite length_app, Nat.add_1_r, fmap_app in Hpops.
  exists s1, s'. split; [done|]. split; [done|]. split; [done|].
  intros a Hin. rewrite Hm. apply free_all_lookup_in.
  rewrite fmap_app. apply elem_of_app. apply elem_of_cons in Hin as [->|Hin].
  - right. left.
  - by left.
Qed.

(** X5.  Last in, first out at the head: after [queue_push_head] of [d],
    popping every entry returns [d] first and then the handles the queue
    held, head to tail. *)
Theorem X5_lifo s q rc l d new0 :
  queue_rep s q rc l → new0 ≠ NULL → entry_mem s !! new0 = None →
  ∃ s1 s', queue_push_head q d new0 s = Ok true s1 ∧
           queue_pop_many (S (length l)) q s1 = Ok (d :: l.*2) s' ∧
           queue_rep s' q rc [].
Proof.
  intros Hrep Ha Hfresh.
  destruct (push_head_rep s q rc l d new0 Hrep Ha Hfresh) as (s1 & Hrun & Hrep1 & _).
  destruct (pop_many_rep q rc _ s1 Hrep1) as (s' & Hpops & Hrep' & _).
  by exists s1, s'.
Qed.

(** X6.  [queue_remove] of a non-null handle [d] says whether [d] is
    stored, and unlinks the first entry that holds it and no other; when
    [d] is not stored the state is unchanged. *)
Theorem X6_remove_first_occurrence s q rc l d fuel :
  queue_rep s q rc l → d ≠ NULL → (length l ≤ fuel)%nat →
  ∃ s', queue_remove fuel q d s = Ok (bool_decide (d ∈ l.*2)) s' ∧
        queue_rep s' q rc (drop_first Z.eqb d l) ∧
        world s' = world s ∧
        (d ∉ l.*2 → s' = s).
Proof.
  intros Hrep Hd Hf. destruct (data_split d l) as [Hnd|(l1 & a & l2 & -> & Hnd)].
  - exists s. rewrite (remove_missing _ _ _ _ _ _ _ Hrep Hnd Hf).
    rewrite bool_decide_eq_false_2 by done.
    destruct (drop_first_none Z.eqb d l (notin_Forall_eqb d l Hnd)) as [-> _].
    by split_and!.
  - rewrite length_app in Hf. simpl in Hf.
    destruct (remove_rep s q rc l1 a d l2 fuel Hrep Hd Hnd) as (s' & Hrun & Hrep' & Hw & _);
      [lia|].
    destruct (drop_first_split Z.eqb d l1 a d l2 (notin_Forall_eqb d l1 Hnd)) as [-> _];
      [apply Z.eqb_refl|].
    exists s'. rewrite bool_decide_eq_true_2.
    + split_and!; try done. intros Hni. exfalso. apply Hni.
      rewrite fmap_app, fmap_cons. apply elem_of_app. right. left.
    + rewrite fmap_app, fmap_cons. apply elem_of_app. right. left.
Qed.

(** X7.  [queue_remove_if] returns the first handle the predicate accepts
    and unlinks the entry that holds it, and no other; it returns [NULL]
    and changes nothing when the predicate accepts none. *)
Theorem X7_remove_if_first_match s q rc l (p : Z → Z → bool) u fuel :
  queue_rep s q rc l → (length l ≤ fuel)%nat →
  ∃ s', queue_remove_if fuel q (Some (pure_match p)) u s
        = Ok (first_match p u l.*2) s' ∧
        queue_rep s' q rc (drop_first p u l) ∧
        world s' = world s ∧
        (Forall (λ x, p x.2 u = false) l → s' = s).
Proof.
  intros Hrep Hf.
  destruct (first_match_split p u l) as [Hall|(l1 & a & d & l2 & -> & Hall & Hp)].
  - exists s. rewrite (remove_if_missing _ _ _ _ _ _ _ _ Hrep Hall Hf).
    destruct (drop_first_none p u l Hall) as [-> ->]. by split_and!.
  - rewrite length_app in Hf. simpl in Hf.
    destruct (remove_if_rep s q rc p u l1 a d l2 fuel Hrep Hall Hp)
      as (s' & Hrun & Hrep' & Hw & _); [lia|].
    destruct (drop_first_split p u l1 a d l2 Hall Hp) as [-> ->].
    exists s'. split_and!; try done. intros Hall'.
    apply Forall_app in Hall' as [_ Hall']. apply Forall_cons in Hall' as [Hd _].
    simpl in Hd. congruence.
Qed.

(** X8.  [queue_find] with a matcher returns the first handle, head to
    tail, that the matcher accepts ([NULL] if none) and changes nothing. *)
Theorem X8_find_first_match s q rc l (p : Z → Z → bool) u fuel :
  queue_rep s q rc l → (length l ≤ fuel)%nat →
  queue_find fuel q (Some (pure_match p)) u s = Ok (first_match p u l.*2) s.
Proof.
  intros (Hq & Hl & Hr) Hf. unfold queue_find. ifs. simpl. step.
  by apply find_loop_exact.
Qed.

(** X9.  [queue_foreach] with a callback that leaves the queue alone calls
    it on every handle once, head to tail, and returns with the queue, its
    nodes and its reference count exactly as they were. *)
Theorem X9_foreach_visits_all s q rc l (f : Z → Z → W → W) u fuel :
  queue_rep s q rc l → 1 ≤ rc < INT_MAX → (length l ≤ fuel)%nat →
  queue_foreach fuel q (Some (visit f)) u s =
    Ok tt (State (entry_mem s) (queue_mem s) (foldl (λ w d, f d u w) (world s) l.*2)).
Proof.
  intros Hrep Hrc Hf. pose proof Hrep as (Hq & Hl & Hr).
  destruct l as [|x l].
  { unfold queue_foreach. ifs. step. simpl. by rewrite state_eta. }
  rewrite (foreach_frame s q rc (x :: l) (uint (Z.of_nat (length (x :: l)))) (visit f) u fuel
             (State (entry_mem s)
                (<[q := Queue (rc + 1) (addr_or (x :: l) NULL) (last_addr (x :: l))
                         (uint (Z.of_nat (length (x :: l))))]> (queue_mem s))
                (foldl (λ w d, f d u w) (world s) (x :: l).*2))
             (x :: l) (uint (Z.of_nat (length (x :: l))))); [|exact Hrep|done|done| |].
  - cbn [entry_mem queue_mem world]. by rewrite ref_unref_id by exact Hr.
  - by rewrite (foreach_loop_skip_end q (rc + 1) (uint (Z.of_nat (length (x :: l))))
                  (visit f) f u fuel (x :: l) []);
      [|apply ref_at|lia|apply visit_quiet|done|done].
  - apply (ref_at (State (entry_mem s) (queue_mem s) _) _ _ _ _ Hrep).
Qed.

(** X10.  When the callback of [queue_foreach], called on an entry, removes
    the entry that follows it, the iteration ends there: the entries after
    the removed one stay in the queue and the callback is never called on
    them. *)
Theorem X10_foreach_stops_when_next_removed s q rc pre a A b B rest
    (f : Z → Z → W → W) u fuel :
  queue_rep s q rc (pre ++ (a, A) :: (b, B) :: rest) →
  A ∉ pre.*2 → B ∉ pre.*2 → B ≠ A → B ≠ NULL →
  1 ≤ rc < INT_MAX → (length (pre ++ (a, A) :: (b, B) :: rest) ≤ fuel)%nat →
  ∃ s', queue_foreach fuel q (Some (remove_other_on fuel q A B f)) u s = Ok tt s' ∧
        world s' = foldl (λ w d, f d u w) (world s) (pre.*2 ++ [A]) ∧
        queue_rep s' q rc (pre ++ (a, A) :: rest).
Proof.
  intros Hrep HA HB HBA HBN Hrc Hf.
  set (L := pre ++ (a, A) :: (b, B) :: rest) in *.
  assert (HL : L ≠ []) by (subst L; by destruct pre).
  pose proof (ref_at _ _ _ _ _ Hrep) as Hat.
  destruct (lseg_mid_notin (entry_mem s) (pre ++ [(a, A)]) b B rest) as [Hb1 Hb2].
  { destruct Hrep as (_ & Hl & _). subst L. by rewrite <- app_assoc. }
  match type of Hat with queue_at ?s0 _ _ _ _ =>
    assert (Hloop : ∃ s1, queue_foreach_loop fuel fuel q (remove_other_on fuel q A B f) u
                            (addr_or L NULL) s0 = Ok tt s1 ∧
                          queue_rep s1 q (rc + 1) (pre ++ (a, A) :: rest) ∧
                          world s1 = foldl (λ w d, f d u w) (world s) (pre.*2 ++ [A]))
  end.
  { subst L. rewrite length_app in Hf. simpl in Hf. unfold INT_MAX in Hrc.
    rewrite (foreach_loop_skip q (rc + 1) _ _ f u fuel pre [] _ _ _ Hat);
      [|lia|by apply remove_other_on_quiet|done|lia|simpl; rewrite length_app; simpl; lia].
    destruct (fuel - length pre)%nat as [|n] eqn:Hn; [lia|].
    destruct (queue_at_entry _ _ _ _ _ _ _ _ Hat) as [Ha Hma].
    pose proof Hat as (Hq & Hl & Hr).
    cbn [queue_foreach_loop addr_or]. ifs. step.
    rewrite (proj2 (Z.ltb_lt 1 (rc + 1))) by lia. cbn [negb]. do 2 step.
    unfold remove_other_on at 1. unfold act at 1. step. rewrite ?Z.eqb_refl. do 2 step.
    match goal with |- context [bind (queue_remove _ _ _) _ ?s0] =>
      destruct (remove_rep s0 q (rc + 1) (pre ++ [(a, A)]) b B rest fuel)
        as (s2 & Hrun & Hrep2 & Hw2 & _)
    end.
    { rewrite <- app_assoc. exact Hat. }
    { done. }
    { rewrite fmap_app. apply not_elem_of_app. split; [done|].
      simpl. apply not_elem_of_cons. split; [done|]. by intros ?%elem_of_nil. }
    { rewrite length_app. simpl. lia. }
    erewrite bind_ok by exact Hrun. step.
    erewrite bind_ok by (apply (find_entry_at s2 q (rc + 1) _ _ _ fuel Hrep2);
                         rewrite !length_app; simpl; lia).
    rewrite bool_decide_eq_false_2.
    - exists s2. split; [done|]. rewrite <- app_assoc in Hrep2. split; [done|].
      rewrite Hw2. simpl. by rewrite foldl_app.
    - rewrite fmap_app. by apply not_elem_of_app. }
  destruct Hloop as (s1 & Hloop & Hrep1 & Hw1).
  destruct (foreach_frame_rep s q rc L _ u fuel s1 _ Hrep HL Hrc Hloop Hrep1)
    as (s' & Hrun & Hrep' & Hw').
  exists s'. split; [done|]. split; [by rewrite Hw', Hw1|done].
Qed.

(** X11.  When the callback of [queue_foreach] appends an entry with
    [queue_push_tail] while it visits an entry that is not the last, the
    iteration reaches the new entry: the callback is called on every old
    handle and then on the new one. *)
Theorem X11_foreach_visits_appended s q rc pre b B c rest d' new0
    (f : Z → Z → W → W) u fuel :
  let l := pre ++ (b, B) :: c :: rest in
  queue_rep s q rc l → 1 ≤ rc < INT_MAX →
  B ∉ pre.*2 → B ∉ (c :: rest).*2 → d' ≠ B →
  new0 ≠ NULL → entry_mem s !! new0 = None →
  (S (length l) ≤ fuel)%nat →
  ∃ s', queue_foreach fuel q (Some (push_tail_on q B d' new0 f)) u s = Ok tt s' ∧
        world s' = foldl (λ w d, f d u w) (world s) (l.*2 ++ [d']) ∧
        queue_rep s' q rc (l ++ [(new0, d')]).
Proof.
  intros l Hrep Hrc HB1 HB2 Hd Ha Hfresh Hf. subst l.
  pose proof (ref_at _ _ _ _ _ Hrep) as Hat. unfold INT_MAX in Hrc.
  destruct (foreach_push_loop _ q (rc + 1) pre b B (c :: rest) d' new0 f u fuel Hat)
    as (s1 & Hloop & Hrep1 & Hw1); [unfold INT_MAX; lia|done|done|done|done|done|done|].
  assert (Hne : pre ++ (b, B) :: c :: rest ≠ []) by by destruct pre.
  assert (Hrc' : 1 ≤ rc < INT_MAX) by (unfold INT_MAX; lia).
  destruct (foreach_frame_rep s q rc _ _ u fuel s1 _ Hrep Hne Hrc' Hloop Hrep1)
    as (s' & Hrun & Hrep' & Hw').
  exists s'. split; [done|]. split; [|done].
  rewrite Hw', Hw1. f_equal. simpl. rewrite !fmap_app, <- !app_assoc. done.
Qed.

(** X12.  When the callback appends an entry while it visits the last
    entry, the iteration ends without reaching it: the next cursor was read
    before the call.  The new entry is in the queue, not visited. *)
Theorem X12_foreach_misses_appended_at_tail s q rc pre b B d' new0
    (f : Z → Z → W → W) u fuel :
  let l := pre ++ [(b, B)] in
  queue_rep s q rc l → 1 ≤ rc < INT_MAX → B ∉ pre.*2 →
  new0 ≠ NULL → entry_mem s !! new0 = None →
  (S (length l) ≤ fuel)%nat →
  ∃ s', queue_foreach fuel q (Some (push_tail_on q B d' new0 f)) u s = Ok tt s' ∧
        world s' = foldl (λ w d, f d u w) (world s) l.*2 ∧
        queue_rep s' q rc (l ++ [(new0, d')]).
Proof.
  intros l Hrep Hrc HB1 Ha Hfresh Hf. subst l.
  pose proof (ref_at _ _ _ _ _ Hrep) as Hat. unfold INT_MAX in Hrc.
  destruct (foreach_push_loop _ q (rc + 1) pre b B [] d' new0 f u fuel Hat)
    as (s1 & Hloop & Hrep1 & Hw1); [unfold INT_MAX; lia|done|by intros ?%elem_of_nil|done..|].
  assert (Hne : pre ++ [(b, B)] ≠ []) by by destruct pre.
  assert (Hrc' : 1 ≤ rc < INT_MAX) by (unfold INT_MAX; lia).
  destruct (foreach_frame_rep s q rc _ _ u fuel s1 _ Hrep Hne Hrc' Hloop Hrep1)
    as (s' & Hrun & Hrep' & Hw').
  exists s'. split; [done|]. split; [|done].
  rewrite Hw', Hw1. by rewrite app_nil_r.
Qed.

(** X13.  [queue_destroy] of a queue that nobody else holds (reference
    count 1) gives every handle to the destructor, head to tail, frees
    every node and frees the queue itself: any later use of the queue
    pointer reads freed memory. *)
Theorem X13_destroy_releases s q l (g : option (Z → W → W)) fuel :
  queue_rep s q 1 l → (length l ≤ fuel)%nat →
  let s' := State (free_all l (entry_mem s)) (delete q (queue_mem s))
              (destroy_all g l.*2 (world s)) in
  queue_destroy fuel q (world_destroy <$> g) s = Ok tt s' ∧
  queue_length q s' = Fault.
Proof.
  intros (Hq & Hl & Hr) Hf s'. split.
  - unfold queue_destroy. ifs. step.
    erewrite bind_ok by by apply queue_destroy_loop_ok.
    unfold queue_unref. do 2 step. change (sint (1 - 1)) with 0. simpl.
    erewrite free_queue_ok; [|done|by simpl; rewrite lookup_insert_eq].
    simpl. by rewrite delete_insert_eq.
  - unfold queue_length. ifs. unfold get_entries, bind, load_queue. ifs.
    simpl. by rewrite lookup_delete_eq.
Qed.

(** X14.  [queue_new] with a successful allocation returns an empty queue
    with reference count 1: length 0, empty, nothing to peek at or to pop;
    no node is touched. *)
Theorem X14_new_is_empty s new0 :
  new0 ≠ NULL →
  ∃ s', queue_new new0 s = Ok new0 s' ∧
        queue_mem s' !! new0 = Some (Queue 1 NULL NULL 0) ∧
        entry_mem s' = entry_mem s ∧ world s' = world s ∧
        queue_length new0 s' = Ok 0 s' ∧
        queue_isempty new0 s' = Ok true s' ∧
        queue_peek_head new0 s' = Ok NULL s' ∧
        queue_peek_tail new0 s' = Ok NULL s' ∧
        queue_pop_head new0 s' = Ok NULL s'.
Proof.
  intros Ha. destruct (queue_new_rep s new0 Ha) as (s' & Hrun & Hrep & Hw & Hm).
  exists s'. pose proof Hrep as (_ & _ & Hr).
  rewrite (length_rep _ _ _ _ Hrep), (isempty_rep _ _ _ _ Hrep),
    (peek_head_at _ _ _ _ _ Hrep), (peek_tail_at _ _ _ _ _ Hrep),
    (pop_head_nil _ _ _ _ Hrep).
  by split_and!.
Qed.

(** X15.  Absent arguments.  On an absent queue every operation returns
    its neutral result and changes nothing; a push does not even allocate.
    The same holds when [queue_new] cannot allocate, and when
    [queue_foreach] or [queue_remove_if] gets no function. *)
Theorem X15_absent_arguments s fuel q d new0 u
    (m : option queue_match_func_t) (g : option queue_destroy_func_t)
    (cb : option queue_foreach_func_t) :
  queue_new NULL s = Ok NULL s ∧
  queue_push_tail NULL d new0 s = Ok false s ∧
  queue_push_head NULL d new0 s = Ok false s ∧
  queue_pop_head NULL s = Ok NULL s ∧
  queue_peek_head NULL s = Ok NULL s ∧
  queue_peek_tail NULL s = Ok NULL s ∧
  queue_find fuel NULL m u s = Ok NULL s ∧
  queue_remove fuel NULL d s = Ok false s ∧
  queue_remove_if fuel NULL m u s = Ok NULL s ∧
  queue_remove_all fuel NULL m u g s = Ok 0 s ∧
  queue_length NULL s = Ok 0 s ∧
  queue_isempty NULL s = Ok true s ∧
  queue_foreach fuel NULL cb u s = Ok tt s ∧
  queue_destroy fuel NULL g s = Ok tt s ∧
  queue_foreach fuel q None u s = Ok tt s ∧
  queue_remove_if fuel q None u s = Ok NULL s.
Proof.
  split_and!; try reflexivity.
  - unfold queue_foreach. by destruct (q =? NULL).
  - unfold queue_remove_if. by destruct (q =? NULL).
Qed.

(** X16.  [queue_find_entry], the test [queue_foreach] makes after every
    call of the callback, answers true exactly for the addresses of the
    nodes linked in the queue (never for [NULL]) and changes nothing. *)
Theorem X16_find_entry_is_membership s q rc l p fuel :
  queue_rep s q rc l → (length l ≤ fuel)%nat →
  queue_find_entry fuel q p s = Ok (bool_decide (p ∈ l.*1)) s ∧
  queue_find_entry fuel q NULL s = Ok false s.
Proof.
  intros Hrep Hf. rewrite !(find_entry_at _ _ _ _ _ _ _ Hrep Hf).
  split; [done|]. rewrite bool_decide_eq_false_2; [done|].
  intros Hin. destruct Hrep as (_ & Hl & _). by destruct (lseg_lookup _ _ _ _ Hl Hin).
Qed.

End Further_properties.

(** * The theorems at concrete inputs *)

Lemma C1_witness :
  queue_rep abcd_state 1 1 abcd ∧
  ∃ s', queue_foreach 4 1 (Some (remove_on 4 1 102 log_visit)) 0 abcd_state = Ok tt s' ∧
        world s' = [101; 102; 103; 104] ∧
        queue_rep s' 1 1 [(10, 101); (30, 103); (40, 104)].
Proof.
  split; [solve_rep|].
  apply (C1_foreach_remove_current abcd_state 1 1 10 20 30 40 101 102 103 104 log_visit 0 4).
  - solve_rep.
  - unfold INT_MAX. lia.
  - lia.
Defined.

Lemma C2_witness :
  queue_rep abcd_state 1 1 abcd ∧
  queue_foreach 4 1 (Some (destroy_on 4 1 102 log_visit (world_destroy <$> Some log)))
    0 abcd_state = Fault.
Proof.
  split; [solve_rep|].
  apply (C2_foreach_destroy_faults abcd_state 1 1 [(10, 101)] 20 102 [(30, 103); (40, 104)]).
  - solve_rep.
  - compute_done.
  - unfold INT_MAX. lia.
  - simpl. lia.
Defined.

Lemma new_state_rep : queue_rep new_state 1 1 [] ∧ ∀ b, entry_mem new_state !! b = None.
Proof. split; [solve_rep|]. intros b. apply lookup_empty. Qed.

Lemma full_state_rep :
  ∃ l, queue_rep full_state 1 1 l ∧ Z.of_nat (length l) = UINT_MODULUS - 1 ∧
       entry_mem full_state !! UINT_MODULUS = None.
Proof.
  destruct new_state_rep as [Hrep Hempty].
  destruct (tail_pushes_run_Z 1 1 new_state (UINT_MODULUS - 1)) as (s' & l & Hrun & _ & Hrep' & Hlen & Hfree);
    [done|done|done|].
  unfold full_state, final_state. rewrite Hrun. exists l.
  split; [done|]. split; [done|]. apply Hfree. unfold UINT_MODULUS. lia.
Qed.

Lemma C3_counterexample :
  queue_inv full_state 1 ∧
  entry_mem full_state !! UINT_MODULUS = None ∧
  ∃ s', queue_push_tail 1 NULL UINT_MODULUS full_state = Ok true s' ∧
        ¬ queue_inv s' 1.
Proof.
  destruct full_state_rep as (l & Hrep & Hlen & Hfresh).
  split; [apply (rep_inv _ _ _ _ Hrep); lia|]. split; [done|].
  destruct (push_tail_rep full_state 1 1 l NULL UINT_MODULUS Hrep) as (s' & Hrun & Hrep' & _);
    [done|done|].
  exists s'. split; [done|].
  intros (r & l' & _ & Hr & _ & Hiff & _).
  destruct Hrep' as (_ & Hl & Hr'). rewrite Hr' in Hr. injection Hr as <-. simpl in Hiff.
  apply (addr_or_snoc_nonnull _ _ _ _ Hl), Hiff.
  rewrite length_app. simpl.
  replace (Z.of_nat (length l + 1)) with UINT_MODULUS by lia. done.
Qed.

Lemma C3_witness :
  queue_inv abcd_state 1 ∧ call_ok abcd_state 1 4 (Call_push_tail 105 50) ∧
  ∃ s', do_call 4 1 (Call_push_tail 105 50) abcd_state = Ok tt s' ∧ queue_inv s' 1.
Proof.
  assert (Hinv : queue_inv abcd_state 1).
  { exists (Queue 1 10 40 4), abcd. split; [done|]. split; [done|].
    split; [simpl; unfold UINT_MODULUS; lia|].
    split; [split; [done|by intros [? _]]|]. solve_rep. }
  assert (Hok : call_ok abcd_state 1 4 (Call_push_tail 105 50)).
  { exists (Queue 1 10 40 4). split; [done|]. split; [simpl; lia|].
    right. split; [done|]. vm_compute. reflexivity. }
  split; [done|]. split; [done|].
  exact (proj2 (C3_invariants_preserved abcd_state) 1 4%nat (Call_push_tail 105 50) Hinv Hok).
Defined.

Lemma C4_counterexample :
  queue_new 1 empty_state = Ok 1 new_state ∧
  allocs_fresh 1 (tail_pushes (Z.to_nat UINT_MODULUS)) new_state ∧
  ∃ s', run 1 (tail_pushes (Z.to_nat UINT_MODULUS)) new_state = Ok (UINT_MODULUS, 0) s' ∧
        queue_length 1 s' = Ok 0 s' ∧
        0 ≠ UINT_MODULUS - 0.
Proof.
  split; [reflexivity|].
  destruct new_state_rep as [Hrep Hempty].
  destruct (tail_pushes_run_Z 1 1 new_state UINT_MODULUS) as (s' & l & Hrun & Hfresh & Hrep' & Hlen & _);
    [done|done|done|].
  split; [exact Hfresh|]. exists s'. split; [exact Hrun|]. split; [|clear; done].
  rewrite (length_rep _ _ _ _ Hrep'), Hlen. reflexivity.
Qed.

Lemma C4_witness :
  queue_new 1 empty_state = Ok 1 new_state ∧
  allocs_fresh 1 pushes_pops new_state ∧
  ∃ pushes pops s',
    run 1 pushes_pops new_state = Ok (pushes, pops) s' ∧
    0 ≤ pushes - pops ∧
    queue_length 1 s' = Ok (uint (pushes - pops)) s' ∧
    (queue_isempty 1 s' = Ok true s' ↔ queue_length 1 s' = Ok 0 s').
Proof.
  assert (Hnew : queue_new 1 empty_state = Ok 1 new_state) by done.
  assert (Hfresh : allocs_fresh 1 pushes_pops new_state).
  { vm_compute. repeat split; auto. }
  split; [done|]. split; [done|].
  apply (C4_length_counts empty_state 1 new_state pushes_pops); [done|done|done].
Defined.

Lemma C7_witness :
  queue_rep abcd_state 1 1 abcd ∧
  ∃ s', queue_remove_all 4 1 None 0 (Some (world_destroy log)) abcd_state = Ok 4 s' ∧
        world s' = [101; 102; 103; 104] ∧
        (∀ a, a ∈ abcd.*1 → entry_mem s' !! a = None) ∧
        queue_mem s' !! 1 = Some (Queue 1 NULL NULL 0) ∧
        queue_length 1 s' = Ok 0 s'.
Proof.
  split; [solve_rep|].
  apply (C7_remove_all_clear abcd_state 1 1 abcd 0 log 4).
  - solve_rep.
  - done.
  - simpl. lia.
Defined.

Lemma C8_witness :
  queue_rep abcd_state 1 1 abcd ∧
  ∃ s', queue_remove_all 4 1 (Some (pure_match is_even)) 0 (world_destroy <$> Some log)
          abcd_state = Ok 2 s' ∧
        queue_rep s' 1 1 [(10, 101); (30, 103)] ∧
        (∀ a, a ∈ [20; 40] → entry_mem s' !! a = None) ∧
        world s' = [102; 104].
Proof.
  split; [solve_rep|].
  apply (C8_remove_all_matching abcd_state 1 1 abcd is_even 0 (Some log) 4).
  - solve_rep.
  - done.
  - simpl. lia.
Defined.

Lemma C9_witness :
  queue_rep abcd_state 1 1 abcd ∧
  ∃ s', queue_push_tail 1 NULL 50 abcd_state = Ok true s' ∧
        queue_rep s' 1 1 (abcd ++ [(50, NULL)]) ∧
        queue_peek_tail 1 s' = Ok NULL s' ∧
        queue_remove 5 1 NULL s' = Ok false s'.
Proof.
  split; [solve_rep|].
  apply (C9_null_handle abcd_state 1 1 abcd 50 5).
  - solve_rep.
  - done.
  - vm_compute. reflexivity.
Defined.

Lemma C10_witness :
  queue_rep abcd_state 1 1 abcd ∧
  ∃ count s',
    queue_remove_all 4 1 (Some (pure_match (λ _ _, true))) 0 (world_destroy <$> Some log)
      abcd_state = Ok count s' ∧
    queue_remove_all 4 1 None 0 (world_destroy <$> Some log) abcd_state = Ok count s'.
Proof.
  split; [solve_rep|].
  apply (C10_remove_all_true_is_clear abcd_state 1 1 abcd (λ _ _, true) 0 (Some log) 4).
  - solve_rep.
  - done.
  - simpl. lia.
Defined.

(** ** The further properties at concrete inputs *)

Lemma X1_witness :
  queue_rep abcd_state 1 1 abcd ∧
  ∃ s', queue_push_tail 1 105 50 abcd_state = Ok true s' ∧
        queue_peek_tail 1 s' = Ok 105 s' ∧
        queue_peek_head 1 s' = Ok 101 s'.
Proof.
  split; [solve_rep|].
  apply (X1_push_tail_then_peek abcd_state 1 1 abcd 105 50).
  - solve_rep.
  - done.
  - vm_compute. reflexivity.
Defined.

Lemma X2_witness :
  queue_rep abcd_state 1 1 abcd ∧
  ∃ s', queue_push_head 1 105 50 abcd_state = Ok true s' ∧
        queue_peek_head 1 s' = Ok 105 s' ∧
        queue_peek_tail 1 s' = Ok 104 s'.
Proof.
  split; [solve_rep|].
  apply (X2_push_head_then_peek abcd_state 1 1 abcd 105 50).
  - solve_rep.
  - done.
  - vm_compute. reflexivity.
Defined.

Lemma X3_witness :
  queue_rep abcd_state 1 1 abcd ∧
  ∃ d s', queue_peek_head 1 abcd_state = Ok d abcd_state ∧
          queue_pop_head 1 abcd_state = Ok d s' ∧
          queue_rep s' 1 1 [(20, 102); (30, 103); (40, 104)] ∧
          entry_mem s' = free_all [(10, 101)] (entry_mem abcd_state) ∧
          world s' = world abcd_state ∧
          (abcd = [] → d = NULL ∧ s' = abcd_state).
Proof.
  split; [solve_rep|].
  apply (X3_pop_head_is_peek_head abcd_state 1 1 abcd). solve_rep.
Defined.

Lemma X4_witness :
  queue_rep abcd_state 1 1 abcd ∧
  ∃ s1 s', queue_push_tail 1 105 50 abcd_state = Ok true s1 ∧
           queue_pop_many 5 1 s1 = Ok [101; 102; 103; 104; 105] s' ∧
           queue_rep s' 1 1 [] ∧
           (∀ a, a ∈ [50; 10; 20; 30; 40] → entry_mem s' !! a = None).
Proof.
  split; [solve_rep|].
  apply (X4_fifo abcd_state 1 1 abcd 105 50).
  - solve_rep.
  - done.
  - vm_compute. reflexivity.
Defined.

Lemma X5_witness :
  queue_rep abcd_state 1 1 abcd ∧
  ∃ s1 s', queue_push_head 1 105 50 abcd_state = Ok true s1 ∧
           queue_pop_many 5 1 s1 = Ok [105; 101; 102; 103; 104] s' ∧
           queue_rep s' 1 1 [].
Proof.
  split; [solve_rep|].
  apply (X5_lifo abcd_state 1 1 abcd 105 50).
  - solve_rep.
  - done.
  - vm_compute. reflexivity.
Defined.

Lemma X6_witness :
  queue_rep abcd_state 1 1 abcd ∧
  ∃ s', queue_remove 4 1 103 abcd_state = Ok true s' ∧
        queue_rep s' 1 1 [(10, 101); (20, 102); (40, 104)] ∧
        world s' = world abcd_state ∧
        (103 ∉ abcd.*2 → s' = abcd_state).
Proof.
  split; [solve_rep|].
  apply (X6_remove_first_occurrence abcd_state 1 1 abcd 103 4).
  - solve_rep.
  - done.
  - simpl. lia.
Defined.

Lemma X7_witness :
  queue_rep abcd_state 1 1 abcd ∧
  ∃ s', queue_remove_if 4 1 (Some (pure_match is_even)) 0 abcd_state = Ok 102 s' ∧
        queue_rep s' 1 1 [(10, 101); (30, 103); (40, 104)] ∧
        world s' = world abcd_state ∧
        (Forall (λ x, is_even x.2 0 = false) abcd → s' = abcd_state).
Proof.
  split; [solve_rep|].
  apply (X7_remove_if_first_match abcd_state 1 1 abcd is_even 0 4).
  - solve_rep.
  - simpl. lia.
Defined.

Lemma X8_witness :
  queue_rep abcd_state 1 1 abcd ∧
  queue_find 4 1 (Some (pure_match is_even)) 0 abcd_state = Ok 102 abcd_state.
Proof.
  split; [solve_rep|].
  apply (X8_find_first_match abcd_state 1 1 abcd is_even 0 4).
  - solve_rep.
  - simpl. lia.
Defined.

Lemma X9_witness :
  queue_rep abcd_state 1 1 abcd ∧
  queue_foreach 4 1 (Some (visit log_visit)) 0 abcd_state =
    Ok tt (State (entry_mem abcd_state) (queue_mem abcd_state) [101; 102; 103; 104]).
Proof.
  split; [solve_rep|].
  apply (X9_foreach_visits_all abcd_state 1 1 abcd log_visit 0 4).
  - solve_rep.
  - unfold INT_MAX. lia.
  - simpl. lia.
Defined.

Lemma X10_witness :
  queue_rep abcd_state 1 1 abcd ∧
  ∃ s', queue_foreach 4 1 (Some (remove_other_on 4 1 101 102 log_visit)) 0 abcd_state
        = Ok tt s' ∧
        world s' = [101] ∧
        queue_rep s' 1 1 [(10, 101); (30, 103); (40, 104)].
Proof.
  split; [solve_rep|].
  apply (X10_foreach_stops_when_next_removed abcd_state 1 1 [] 10 101 20 102
           [(30, 103); (40, 104)] log_visit 0 4).
  - solve_rep.
  - compute_done.
  - compute_done.
  - done.
  - done.
  - unfold INT_MAX. lia.
  - simpl. lia.
Defined.

Lemma X11_witness :
  queue_rep abcd_state 1 1 abcd ∧
  ∃ s', queue_foreach 5 1 (Some (push_tail_on 1 102 105 50 log_visit)) 0 abcd_state
        = Ok tt s' ∧
        world s' = [101; 102; 103; 104; 105] ∧
        queue_rep s' 1 1 (abcd ++ [(50, 105)]).
Proof.
  split; [solve_rep|].
  apply (X11_foreach_visits_appended abcd_state 1 1 [(10, 101)] 20 102 (30, 103)
           [(40, 104)] 105 50 log_visit 0 5).
  - solve_rep.
  - unfold INT_MAX. lia.
  - compute_done.
  - compute_done.
  - done.
  - done.
  - vm_compute. reflexivity.
  - simpl. lia.
Defined.

Lemma X12_witness :
  queue_rep abcd_state 1 1 abcd ∧
  ∃ s', queue_foreach 5 1 (Some (push_tail_on 1 104 105 50 log_visit)) 0 abcd_state
        = Ok tt s' ∧
        world s' = [101; 102; 103; 104] ∧
        queue_rep s' 1 1 (abcd ++ [(50, 105)]).
Proof.
  split; [solve_rep|].
  apply (X12_foreach_misses_appended_at_tail abcd_state 1 1
           [(10, 101); (20, 102); (30, 103)] 40 104 105 50 log_visit 0 5).
  - solve_rep.
  - unfold INT_MAX. lia.
  - compute_done.
  - done.
  - vm_compute. reflexivity.
  - simpl. lia.
Defined.

Lemma X13_witness :
  queue_rep abcd_state 1 1 abcd ∧
  queue_destroy 4 1 (world_destroy <$> Some log) abcd_state =
    Ok tt (State (free_all abcd (entry_mem abcd_state)) (delete 1 (queue_mem abcd_state))
             [101; 102; 103; 104]) ∧
  queue_length 1 (State (free_all abcd (entry_mem abcd_state))
                    (delete 1 (queue_mem abcd_state)) [101; 102; 103; 104]) = Fault.
Proof.
  split; [solve_rep|].
  apply (X13_destroy_releases abcd_state 1 abcd (Some log) 4).
  - solve_rep.
  - simpl. lia.
Defined.

Lemma X14_witness :
  (2 : Z) ≠ NULL ∧
  ∃ s', queue_new 2 abcd_state = Ok 2 s' ∧
        queue_mem s' !! 2 = Some (Queue 1 NULL NULL 0) ∧
        entry_mem s' = entry_mem abcd_state ∧ world s' = world abcd_state ∧
        queue_length 2 s' = Ok 0 s' ∧
        queue_isempty 2 s' = Ok true s' ∧
        queue_peek_head 2 s' = Ok NULL s' ∧
        queue_peek_tail 2 s' = Ok NULL s' ∧
        queue_pop_head 2 s' = Ok NULL s'.
Proof.
  split; [done|]. apply (X14_new_is_empty abcd_state 2). done.
Defined.


Lemma X16_witness :
  queue_rep abcd_state 1 1 abcd ∧
  queue_find_entry 4 1 30 abcd_state = Ok true abcd_state ∧
  queue_find_entry 4 1 NULL abcd_state = Ok false abcd_state.
Proof.
  split; [solve_rep|].
  apply (X16_find_entry_is_membership abcd_state 1 1 abcd 30 4).
  - solve_rep.
  - simpl. lia.
Defined.
